(** * iran-payment-proxy: a shallow embedding of [src/index.js]

    The development follows the source file top to bottom: the
    configuration tables, the [ProxyServer] methods ([sanitizeHeaders],
    [handlePaymentGatewayProxy], [handleRedirect],
    [handleCorsPreflightRequest], [sendError], [proxyRequest],
    [handleRequest]) and the shutdown routine of [setupGracefulShutdown].

    JavaScript objects used as string-keyed tables are finite maps
    ([gmap string _]); property reads that go through [obj[key]] also see
    the properties inherited from [Object.prototype], as they do in the
    source.  Node's [http.ServerResponse] is a record threaded through the
    handlers; calls that can throw return a [Completion].  The event
    listeners installed by [proxyRequest] and by [setupGracefulShutdown]
    are step functions over an explicit state.  Console output that
    carries a timestamp is left out. *)

From Stdlib Require Import String Ascii Bool List NArith.
From stdpp Require Import base option strings gmap list.

Local Open Scope string_scope.

(** ** JavaScript values and strings *)

Module JS.

(** The values that can flow out of a table read [obj[key]] in this
    program: a configured string, [undefined], or something inherited
    from [Object.prototype]. *)
Inductive Value :=
| Undefined
| Str (s : string)
| NativeFunction (name : string)
| ObjectPrototype.

(** ToBoolean. *)
Definition truthy (v : Value) : bool :=
  match v with
  | Undefined => false
  | Str s => negb (String.eqb s "")
  | NativeFunction _ => true
  | ObjectPrototype => true
  end.

(** ToString, as applied by [+] with a string operand and by template
    literals (V8 prints built-in functions as below). *)
Definition toString (v : Value) : string :=
  match v with
  | Undefined => "undefined"
  | Str s => s
  | NativeFunction name => "function " +:+ name +:+ "() { [native code] }"
  | ObjectPrototype => "[object Object]"
  end.

(** The function-valued properties every object literal inherits. *)
Definition prototype_methods : list string :=
  [ "hasOwnProperty"; "isPrototypeOf"; "propertyIsEnumerable";
    "toLocaleString"; "toString"; "valueOf";
    "__defineGetter__"; "__defineSetter__";
    "__lookupGetter__"; "__lookupSetter__" ].

(** [Object.prototype[key]]. *)
Definition Object_prototype (key : string) : Value :=
  if String.eqb key "constructor" then NativeFunction "Object"
  else if String.eqb key "__proto__" then ObjectPrototype
  else if existsb (String.eqb key) prototype_methods then NativeFunction key
  else Undefined.

(** [obj[key]] on an object literal whose own properties are [obj]. *)
Definition get (obj : gmap string string) (key : string) : Value :=
  match obj !! key with
  | Some v => Str v
  | None => Object_prototype key
  end.

(** [s.substring(start)]. *)
Fixpoint substring (s : string) (start : nat) : string :=
  match start, s with
  | O, _ => s
  | S n, EmptyString => EmptyString
  | S n, String _ s' => substring s' n
  end.

(** [s.startsWith(p)]. *)
Fixpoint startsWith (s p : string) {struct p} : bool :=
  match p with
  | EmptyString => true
  | String a p' =>
      match s with
      | EmptyString => false
      | String b s' => Ascii.eqb a b && startsWith s' p'
      end
  end.

(** [s.toLowerCase()] on ASCII letters. *)
Definition lower_ascii (c : ascii) : ascii :=
  let n := nat_of_ascii c in
  if (65 <=? n)%nat && (n <=? 90)%nat then ascii_of_nat (n + 32) else c.

Fixpoint toLowerCase (s : string) : string :=
  match s with
  | EmptyString => EmptyString
  | String c s' => String (lower_ascii c) (toLowerCase s')
  end.

End JS.

(** ** Configuration (lines 5-42) *)

Definition REQUEST_TIMEOUT : N := 30000%N.
Definition GRACEFUL_SHUTDOWN_TIMEOUT : N := 10000%N.

Definition REDIRECTION_MAP : gmap string string :=
  <["pay.v1-domain.com" := "https://api.myapp.com"]>
  (<["pay.v2-domain.com" := "https://api.myapp.com"]> ∅).

Record GatewayConfig := { target : string; host : string }.

(** [PAYMENT_GATEWAYS], in the order [Object.entries] enumerates it. *)
Definition PAYMENT_GATEWAYS : list (string * GatewayConfig) :=
  [ ("vandar",   {| target := "https://ipg.vandar.io";
                    host := "ipg.vandar.io" |});
    ("zibal",    {| target := "https://gateway.zibal.ir";
                    host := "gateway.zibal.ir" |});
    ("zarinpal", {| target := "https://payment.zarinpal.com";
                    host := "payment.zarinpal.com" |}) ].

Definition HOST_CONFIG : gmap string string :=
  <["pay.v1-domain.com" := "https://v1-domain.com/"]>
  (<["pay.v2-domain.com" := "https://v1-domain.com/"]> ∅).

Definition HOP_BY_HOP_HEADERS : list string :=
  [ "connection"; "upgrade"; "proxy-authorization"; "proxy-authenticate";
    "te"; "trailer"; "transfer-encoding" ].

(** ** sanitizeHeaders (lines 50-54) *)

(** A header object: own properties keyed by the exact property name. *)
Abbreviation Headers := (gmap string string).

(** [const sanitized = { ...headers };
     HOP_BY_HOP_HEADERS.forEach((header) => delete sanitized[header]);
     return sanitized;] *)
Definition sanitizeHeaders (headers : Headers) : Headers :=
  let sanitized := headers in
  foldl (fun sanitized header => delete header sanitized)
        sanitized HOP_BY_HOP_HEADERS.

(** The same method over a store of objects, where the argument and the
    result are references: the spread allocates a new object and every
    [delete] writes to that new object. *)
Abbreviation Store := (gmap nat Headers).

Definition alloc (σ : Store) : nat := fresh (dom σ).

Definition store_delete (l : nat) (key : string) (σ : Store) : Store :=
  alter (delete key) l σ.

Definition sanitizeHeaders_ref (σ : Store) (headers : nat) : Store * nat :=
  let sanitized := alloc σ in
  let σ1 := <[sanitized := default ∅ (σ !! headers)]> σ in
  (foldl (fun σ header => store_delete sanitized header σ)
         σ1 HOP_BY_HOP_HEADERS,
   sanitized).

(** Equality of header names up to letter case. *)
Definition same_name_ci (a b : string) : Prop :=
  JS.toLowerCase a = JS.toLowerCase b.

(** ** The inbound response object *)

(** Exceptions the modelled calls can raise. *)
Inductive Exn :=
| ERR_HTTP_HEADERS_SENT
| ERR_STREAM_WRITE_AFTER_END
| ERR_INVALID_URL (input : string)
| TypeError (msg : string).

Inductive Completion (A : Type) :=
| Normal (a : A)
| Throw (e : Exn).
Arguments Normal {A} a.
Arguments Throw {A} e.

#[global] Instance Completion_ret : MRet Completion := fun A a => Normal a.

#[global] Instance Completion_bind : MBind Completion :=
  fun A B k c =>
    match c with
    | Normal a => k a
    | Throw e => Throw e
    end.

(** What the program reads and writes of an [http.ServerResponse]:
    [header] is the status line and header object given to [writeHead]
    ([None] until then), [body] the chunks passed to [write]/[end],
    [finished] whether [end] was called, [destroyed] whether the
    underlying connection is gone. *)
Record ServerResponse := {
  header : option (nat * Headers);
  body : list string;
  finished : bool;
  destroyed : bool
}.

(** The response object handed to a request listener. *)
Definition newResponse : ServerResponse :=
  {| header := None; body := []; finished := false; destroyed := false |}.

(** [res.headersSent] *)
Definition headersSent (res : ServerResponse) : bool :=
  match header res with Some _ => true | None => false end.

(** [res.writeHead(statusCode, headers)]: throws once a head was written. *)
Definition writeHead (res : ServerResponse) (statusCode : nat)
    (headers : Headers) : Completion ServerResponse :=
  if headersSent res then Throw ERR_HTTP_HEADERS_SENT
  else Normal {| header := Some (statusCode, headers);
                 body := body res;
                 finished := finished res;
                 destroyed := destroyed res |}.

(** The head Node writes by itself when a body is written first. *)
Definition implicitHead (res : ServerResponse) : option (nat * Headers) :=
  match header res with
  | Some h => Some h
  | None => Some (200, ∅)
  end.

(** [res.write(chunk)].  On a response that was already ended the
    chunk is not written and Node reports [ERR_STREAM_WRITE_AFTER_END]
    (on the next tick, through the response's error event, for which
    the program has no listener); the model renders that report as
    [Throw] of the call. *)
Definition write (res : ServerResponse) (chunk : string)
  : Completion ServerResponse :=
  if finished res then Throw ERR_STREAM_WRITE_AFTER_END
  else Normal {| header := implicitHead res;
                 body := body res ++ [chunk];
                 finished := false;
                 destroyed := destroyed res |}.

(** [res.end(data)] and [res.end()]: a second [end] is ignored. *)
Definition end_ (res : ServerResponse) (data : option string)
  : ServerResponse :=
  if finished res then res
  else {| header := implicitHead res;
          body := body res ++ match data with
                              | Some d => [d]
                              | None => []
                              end;
          finished := true;
          destroyed := destroyed res |}.

(** ** sendError (lines 111-116) *)

Definition sendError (res : ServerResponse) (statusCode : nat)
    (message : string) : Completion ServerResponse :=
  if headersSent res || destroyed res then Normal res
  else
    res ← writeHead res statusCode {[ "Content-Type" := "text/plain" ]} ;
    Normal (end_ res (Some message)).

(** ** handleRedirect (lines 86-99) *)

Definition handleRedirect (res : ServerResponse) (targetUrl : string)
  : Completion ServerResponse :=
  res ← writeHead res 302
        (<["Location" := targetUrl]>
         (<["Content-Type" := "text/plain"]>
          (<["Access-Control-Allow-Origin" := "*"]> ∅))) ;
  Normal (end_ res (Some ("Redirecting to " +:+ targetUrl))).

(** ** handleCorsPreflightRequest (lines 102-109) *)

Definition handleCorsPreflightRequest (res : ServerResponse)
  : Completion ServerResponse :=
  res ← writeHead res 200
        (<["Access-Control-Allow-Origin" := "*"]>
         (<["Access-Control-Allow-Methods" :=
              "GET, POST, PUT, DELETE, OPTIONS"]>
          (<["Access-Control-Allow-Headers" :=
               "Content-Type, Authorization"]> ∅))) ;
  Normal (end_ res None).

(** ** The inbound request and [url.parse] *)

(** What the program reads of an [http.IncomingMessage].  Node stores
    the received header names in lower case, so [req.headers.host] is the
    own property ["host"] or [undefined]. *)
Record IncomingMessage := {
  method : string;
  url : string;
  headers : Headers
}.

Module Url.

(** Character classes of [lib/url.js], by character code. *)
Definition code_in (codes : list nat) (c : ascii) : bool :=
  existsb (Nat.eqb (nat_of_ascii c)) codes.

(** [?] and [#]. *)
Definition is_split : ascii → bool := code_in [63; 35].

(** The class [[a-z0-9.+-]], case-insensitive, of [protocolPattern]. *)
Definition is_scheme_char (c : ascii) : bool :=
  let n := nat_of_ascii c in
  ((97 <=? n)%nat && (n <=? 122)%nat) || ((65 <=? n)%nat && (n <=? 90)%nat)
  || ((48 <=? n)%nat && (n <=? 57)%nat) || code_in [46; 43; 45] c.

Definition is_digit (c : ascii) : bool :=
  let n := nat_of_ascii c in (48 <=? n)%nat && (n <=? 57)%nat.

(** The characters that are never part of a host name (the cases of the
    host loop that set [nonHost] only): space, double quote, percent,
    single quote, semicolon, angle brackets, backslash, caret,
    backquote, braces and bar. *)
Definition is_never_host : ascii → bool :=
  code_in [32; 34; 37; 39; 59; 60; 62; 92; 94; 96; 123; 124; 125].

(** The characters that end the host: [#], [/] and [?]. *)
Definition is_host_end : ascii → bool := code_in [35; 47; 63].

(** [forbiddenHostChars] and [forbiddenHostCharsIpv6]. *)
Definition is_forbidden_host_char : ascii → bool :=
  code_in [0; 9; 10; 13; 32; 35; 37; 47; 58; 60; 62; 63; 64; 91; 92; 93;
           94; 124].
Definition is_forbidden_ipv6_char : ascii → bool :=
  code_in [0; 9; 10; 13; 32; 35; 37; 47; 60; 62; 63; 64; 92; 94; 124].

Fixpoint any_char (f : ascii → bool) (s : string) : bool :=
  match s with
  | EmptyString => false
  | String c s' => f c || any_char f s'
  end.

Fixpoint all_chars (f : ascii → bool) (s : string) : bool :=
  match s with
  | EmptyString => true
  | String c s' => f c && all_chars f s'
  end.

(** The loop at the head of [parse]: every backslash before the first
    [?] or [#] becomes a forward slash. *)
Fixpoint convert_backslashes (s : string) : string :=
  match s with
  | EmptyString => EmptyString
  | String c s' =>
      if is_split c then s
      else String (if Ascii.eqb c "\"%char then "/"%char else c)
                  (convert_backslashes s')
  end.

(** The characters before the first [?] or [#]. *)
Fixpoint until_split (s : string) : string :=
  match s with
  | EmptyString => EmptyString
  | String c s' => if is_split c then EmptyString
                   else String c (until_split s')
  end.

(** The pathname read off what is left after scheme and host; [None] is
    JavaScript's [null], which the parser leaves when nothing precedes
    the query and the fragment. *)
Definition rest_pathname (rest : string) : option string :=
  let p := until_split rest in
  if String.eqb p "" then None else Some p.

(** Where a leading [protocolPattern] match ends: the length of the run
    of scheme characters and the colon after it. *)
Fixpoint scheme_end (s : string) : option nat :=
  match s with
  | EmptyString => None
  | String c s' =>
      if is_scheme_char c then
        match scheme_end s' with Some n => Some (S n) | None => None end
      else if Ascii.eqb c ":"%char then Some 1
      else None
  end.

(** [protocolPattern.exec(rest)]: the scheme with its colon, and the
    rest. *)
Definition protocol (rest : string) : option (string * string) :=
  match scheme_end rest with
  | Some (S (S n)) =>
      Some (String.substring 0 (S (S n)) rest, JS.substring rest (S (S n)))
  | _ => None
  end.

Definition hostlessProtocol (lowerProto : string) : bool :=
  String.eqb lowerProto "javascript:".

Definition slashedProtocol (proto : string) : bool :=
  existsb (String.eqb proto)
    [ "http:"; "https:"; "ftp:"; "gopher:"; "file:"; "ws:"; "wss:" ].

(** The host loop: the index of the last [@] before the host ends, and
    the index [nonHost] at which the host stops. *)
Fixpoint scan_host (s : string) (i : nat) (atSign nonHost : option nat)
  : option nat * option nat :=
  match s with
  | EmptyString => (atSign, nonHost)
  | String c s' =>
      let first := match nonHost with Some j => Some j | None => Some i end in
      if is_never_host c then scan_host s' (S i) atSign first
      else if is_host_end c then (atSign, first)
      else if Ascii.eqb c "@"%char then scan_host s' (S i) (Some i) None
      else scan_host s' (S i) atSign nonHost
  end.

(** [this.host] and the new [rest]. *)
Definition split_host (rest : string) : string * string :=
  let '(atSign, nonHost) := scan_host rest 0 None None in
  let start := match atSign with Some a => S a | None => 0 end in
  match nonHost with
  | None => (JS.substring rest start, EmptyString)
  | Some n => (String.substring start (n - start) rest, JS.substring rest n)
  end.

(** [parseHost]: the host without a final colon and digits
    ([portPattern]). *)
Fixpoint strip_port (host : string) : string :=
  match host with
  | EmptyString => EmptyString
  | String c s' =>
      if Ascii.eqb c ":"%char && all_chars is_digit s' then EmptyString
      else String c (strip_port s')
  end.

Fixpoint last_char (s : string) : option ascii :=
  match s with
  | EmptyString => None
  | String c EmptyString => Some c
  | String _ s' => last_char s'
  end.

(** [isIpv6Hostname] *)
Definition isIpv6Hostname (hostname : string) : bool :=
  match hostname, last_char hostname with
  | String c _, Some d => Ascii.eqb c "["%char && Ascii.eqb d "]"%char
  | _, _ => false
  end.

(** [getHostname]: the host name stops at the first slash, backslash,
    [#], [?] or colon; what follows it goes back in front of [rest]
    behind a slash. *)
Fixpoint hostname_split (hostname : string) : string * string :=
  match hostname with
  | EmptyString => (EmptyString, EmptyString)
  | String c s' =>
      if code_in [47; 92; 35; 63; 58] c then (EmptyString, hostname)
      else let '(h, moved) := hostname_split s' in (String c h, moved)
  end.

Definition getHostname (hostname rest : string) : string * string :=
  let '(h, moved) := hostname_split hostname in
  (h, if String.eqb moved "" then rest else "/" +:+ moved +:+ rest).

(** [url.parse(u).pathname] of Node's legacy parser (lib/url.js of Node
    22, the version of the Dockerfile), or the exception the call
    throws.  The steps are the parser's: backslash conversion, scheme,
    the two slashes, host, port, host name validation, and the pathname
    cut at the first [?] or [#].  Left out: the trimming of white space
    around the target, the decoding of user information before an [@]
    and the detection of a host after two slashes that it triggers, the
    removal of tab and line-break characters inside the host, the IDNA
    conversion of the host name (the identity on an ASCII name without
    [xn--] labels), and the percent-escaping of the pathname, which
    rewrites a character to a string starting with a percent sign and
    so does not change whether the pathname starts with a given prefix
    made of slashes and letters.  [modelled] below is a class of targets
    on which none of these matters. *)
Definition parse (u : string) : Completion (option string) :=
  let rest := convert_backslashes u in
  match protocol rest with
  | None => Normal (rest_pathname rest)
  | Some (proto, rest) =>
      let lowerProto := JS.toLowerCase proto in
      let slashes := JS.startsWith rest "//" in
      let rest :=
        if slashes && negb (hostlessProtocol lowerProto)
        then JS.substring rest 2 else rest in
      if negb (hostlessProtocol lowerProto)
         && (slashes || negb (slashedProtocol proto))
      then
        let '(host, rest) := split_host rest in
        let hostname := strip_port host in
        let ipv6Hostname := isIpv6Hostname hostname in
        let '(hostname, rest) :=
          if ipv6Hostname then (hostname, rest)
          else getHostname hostname rest in
        let hostname :=
          if (255 <? String.length hostname)%nat then EmptyString
          else JS.toLowerCase hostname in
        if negb (String.eqb hostname "")
           && any_char (if ipv6Hostname then is_forbidden_ipv6_char
                        else is_forbidden_host_char) hostname
        then Throw (ERR_INVALID_URL u)
        else
          let rest :=
            if ipv6Hostname && negb (JS.startsWith rest "/")
            then "/" +:+ rest else rest in
          let hostname :=
            if ipv6Hostname
            then String.substring 1 (String.length hostname - 2) hostname
            else hostname in
          match rest_pathname rest with
          | Some pathname => Normal (Some pathname)
          | None =>
              if slashedProtocol lowerProto
                 && negb (String.eqb hostname "")
              then Normal (Some "/")
              else Normal None
          end
      else Normal (rest_pathname rest)
  end.

(** A target in origin form: one slash, not followed by a second slash
    or a backslash. *)
Definition origin_form (u : string) : bool :=
  match u with
  | String c EmptyString => Ascii.eqb c "/"%char
  | String c (String d _) =>
      Ascii.eqb c "/"%char && negb (code_in [47; 92] d)
  | EmptyString => false
  end.

(** Visible ASCII characters other than [@]. *)
Definition is_plain (c : ascii) : bool :=
  let n := nat_of_ascii c in
  (33 <=? n)%nat && (n <=? 126)%nat && negb (Nat.eqb n 64).

Definition is_host_name_char (c : ascii) : bool :=
  let n := nat_of_ascii c in
  ((97 <=? n)%nat && (n <=? 122)%nat) || ((65 <=? n)%nat && (n <=? 90)%nat)
  || ((48 <=? n)%nat && (n <=? 57)%nat) || code_in [46; 45] c.

Fixpoint take_while (f : ascii → bool) (s : string) : string :=
  match s with
  | EmptyString => EmptyString
  | String c s' => if f c then String c (take_while f s') else EmptyString
  end.

Fixpoint contains (s sub : string) : bool :=
  JS.startsWith s sub
  || match s with
     | EmptyString => false
     | String _ s' => contains s' sub
     end.

(** After the host name: nothing, the path, the query or the fragment,
    possibly behind a colon and a port number. *)
Definition ends_authority (s : string) : bool :=
  let after_port :=
    match s with
    | String c s' =>
        if Ascii.eqb c ":"%char
        then JS.substring s' (String.length (take_while is_digit s'))
        else s
    | EmptyString => s
    end in
  match after_port with
  | EmptyString => true
  | String c _ => is_host_end c
  end.

(** A scheme, two slashes and a host name of letters, digits, dots and
    hyphens (no [xn--] label), with an optional port. *)
Definition simple_authority (proto rest : string) : bool :=
  let host := take_while is_host_name_char (JS.substring rest 2) in
  negb (hostlessProtocol (JS.toLowerCase proto))
  && JS.startsWith rest "//"
  && negb (String.eqb host "")
  && (String.length host <=? 255)%nat
  && negb (contains (JS.toLowerCase host) "xn--")
  && ends_authority (JS.substring rest (2 + String.length host)).

(** The request targets on which [parse] is the parser, up to the
    escaping inside the pathname: targets in origin form, whatever their
    characters, and targets of visible ASCII characters without [@]
    that either have no scheme (such as [*]) or are a scheme followed by
    a simple authority (absolute form). *)
Definition modelled (u : string) : bool :=
  origin_form u
  || (all_chars is_plain u
      && match protocol (convert_backslashes u) with
         | None => true
         | Some (proto, rest) => simple_authority proto rest
         end).

End Url.

(** ** handleRequest (lines 219-274) *)

(** The header names and the texts the handlers use. *)
Definition unrecognized_host : string := "Bad Request: Unrecognized host".
Definition no_redirect_target : string :=
  "Bad Request: No redirect target configured".

(** How [handleRequest] leaves a request: either it wrote the response
    itself (or threw while doing so), or it handed the request to
    [handlePaymentGatewayProxy] with these arguments. *)
Inductive Dispatch :=
| Responded (c : Completion ServerResponse)
| GatewayProxy (gateway finalPath : string) (referrer : JS.Value).

(** The [for (const [gateway, config] of Object.entries(PAYMENT_GATEWAYS))]
    loop: the first gateway whose prefix the pathname starts with, and the
    path to forward. *)
Fixpoint gatewayLoop (entries : list (string * GatewayConfig))
    (pathname originalPath : string) : option (string * string) :=
  match entries with
  | [] => None
  | (gateway, config) :: entries =>
      let pathPrefix := "/" +:+ gateway +:+ "/" in
      if JS.startsWith pathname pathPrefix then
        let targetPath :=
          JS.substring originalPath (String.length pathPrefix - 1) in
        let finalPath :=
          if JS.startsWith targetPath "/" then targetPath
          else "/" +:+ targetPath in
        Some (gateway, finalPath)
      else gatewayLoop entries pathname originalPath
  end.

Definition handleRequest (req : IncomingMessage) (res : ServerResponse)
  : Dispatch :=
  let requestHost :=
    match headers req !! "host" with
    | Some h => JS.Str h
    | None => JS.Undefined
    end in
  let originalPath := url req in
  match Url.parse originalPath with
  | Throw e => Responded (Throw e)
  | Normal pathname =>
  if String.eqb (method req) "OPTIONS" then
    Responded (handleCorsPreflightRequest res)
  else if negb (JS.truthy requestHost)
          || negb (JS.truthy (JS.get HOST_CONFIG (JS.toString requestHost)))
  then Responded (sendError res 400 unrecognized_host)
  else
    let referrer := JS.get HOST_CONFIG (JS.toString requestHost) in
    match pathname with
    | None =>
        Responded (Throw (TypeError
          "Cannot read properties of null (reading 'startsWith')"))
    | Some pathname =>
        match gatewayLoop PAYMENT_GATEWAYS pathname originalPath with
        | Some (gateway, finalPath) =>
            GatewayProxy gateway finalPath referrer
        | None =>
            let targetBaseUrl :=
              JS.get REDIRECTION_MAP (JS.toString requestHost) in
            if JS.truthy targetBaseUrl then
              let targetUrl := JS.toString targetBaseUrl +:+ originalPath in
              Responded (handleRedirect res targetUrl)
            else Responded (sendError res 400 no_redirect_target)
        end
    end
  end.

(** ** proxyRequest (lines 118-217) *)

(** The [options] of the outbound [httpModule.request]; [href] stands
    for [hostname], [port] and [path], which are the parts of
    [targetUrl]. *)
Record RequestOptions := {
  href : string;
  opt_method : string;
  opt_headers : Headers;
  timeout : N
}.

Inductive Promise := Pending | Resolved | Rejected.

(** The state one call of [proxyRequest] works on: the inbound response,
    the outbound request ([proxyReq]), whether the response callback has
    run (only then do listeners on [proxyRes] exist), whether the inbound
    body is piped or the outbound request was ended at once, and the
    promise that [handlePaymentGatewayProxy] awaits. *)
Record Forwarding := {
  options : RequestOptions;
  res : ServerResponse;
  proxyReq_destroyed : bool;
  proxyRes : bool;
  piped : bool;
  promise : Promise
}.

Definition set_res (fw : Forwarding) (r : ServerResponse) : Forwarding :=
  {| options := options fw; res := r;
     proxyReq_destroyed := proxyReq_destroyed fw;
     proxyRes := proxyRes fw; piped := piped fw; promise := promise fw |}.

Definition set_promise (fw : Forwarding) (p : Promise) : Forwarding :=
  {| options := options fw; res := res fw;
     proxyReq_destroyed := proxyReq_destroyed fw;
     proxyRes := proxyRes fw; piped := piped fw; promise := p |}.

Definition gotResponse (fw : Forwarding) : Forwarding :=
  {| options := options fw; res := res fw;
     proxyReq_destroyed := proxyReq_destroyed fw;
     proxyRes := true; piped := piped fw; promise := promise fw |}.

(** [proxyReq.destroy()] *)
Definition destroy (fw : Forwarding) : Forwarding :=
  {| options := options fw; res := res fw;
     proxyReq_destroyed := true;
     proxyRes := proxyRes fw; piped := piped fw; promise := promise fw |}.

(** The three headers set on every proxied response (lines 141-145). *)
Definition addCorsHeaders (responseHeaders : Headers) : Headers :=
  <["Access-Control-Allow-Headers" := "Content-Type, Authorization"]>
  (<["Access-Control-Allow-Methods" := "GET, POST, PUT, DELETE, OPTIONS"]>
   (<["Access-Control-Allow-Origin" := "*"]> responseHeaders)).

(** [resolve()]: settles a pending promise. *)
Definition resolve (fw : Forwarding) : Forwarding :=
  match promise fw with
  | Pending => set_promise fw Resolved
  | _ => fw
  end.

(** [reject(error)]: settles a pending promise; the rejection resumes
    [handlePaymentGatewayProxy] in its [catch] block (lines 77-83), which
    calls [sendError(res, 500, "Proxy Error")]. *)
Definition reject (fw : Forwarding) : Completion Forwarding :=
  match promise fw with
  | Pending =>
      r ← sendError (res fw) 500 "Proxy Error";
      mret (set_res (set_promise fw Rejected) r)
  | _ => mret fw
  end.

(** What can happen to a forwarding in progress: the events the
    listeners of [proxyRequest] are registered for, and the inbound
    connection going away. *)
Inductive Event :=
| Response (statusCode : nat) (responseHeaders : Headers)
| ProxyResData (chunk : string)
| ProxyResEnd
| ProxyResError
| ProxyReqError
| ProxyReqTimeout
| ReqClose
| ReqError
| SocketClosed.

(** One listener run; [Throw] is an exception that escapes the listener. *)
Definition on (ev : Event) (fw : Forwarding) : Completion Forwarding :=
  match ev with
  | Response statusCode hdrs =>
      let responseHeaders := addCorsHeaders (sanitizeHeaders hdrs) in
      r ← writeHead (res fw) statusCode responseHeaders;
      mret (gotResponse (set_res fw r))
  | ProxyResData chunk =>
      if proxyRes fw then
        if negb (destroyed (res fw)) then
          r ← write (res fw) chunk; mret (set_res fw r)
        else mret fw
      else mret fw
  | ProxyResEnd =>
      if proxyRes fw then
        let fw :=
          if negb (destroyed (res fw)) then set_res fw (end_ (res fw) None)
          else fw in
        mret (resolve fw)
      else mret fw
  | ProxyResError =>
      if proxyRes fw then
        r ← sendError (res fw) 500 "Internal Server Error";
        reject (set_res fw r)
      else mret fw
  | ProxyReqError =>
      r ← sendError (res fw) 500 "Internal Server Error";
      reject (set_res fw r)
  | ProxyReqTimeout =>
      let fw := destroy fw in
      r ← sendError (res fw) 504 "Gateway Timeout";
      reject (set_res fw r)
  | ReqClose =>
      mret (if negb (proxyReq_destroyed fw) then destroy fw else fw)
  | ReqError =>
      let fw := if negb (proxyReq_destroyed fw) then destroy fw else fw in
      reject fw
  | SocketClosed =>
      let r := res fw in
      mret (set_res fw {| header := header r; body := body r;
                          finished := finished r; destroyed := true |})
  end.

(** A sequence of events, stopping at the first escaping exception. *)
Fixpoint run (evs : list Event) (fw : Forwarding) : Completion Forwarding :=
  match evs with
  | [] => mret fw
  | ev :: evs => fw ← on ev fw; run evs fw
  end.

(** The body of the promise executor up to the registration of the
    listeners (lines 120-136 and 210-215). *)
Definition proxyRequest (req : IncomingMessage) (res : ServerResponse)
    (targetUrl : string) (customHeaders : Headers) : Forwarding :=
  let proxyHeaders := sanitizeHeaders (headers req) in
  let proxyHeaders := customHeaders ∪ proxyHeaders in
  let proxyHeaders := <["connection" := "close"]> proxyHeaders in
  {| options := {| href := targetUrl;
                   opt_method := method req;
                   opt_headers := proxyHeaders;
                   timeout := REQUEST_TIMEOUT |};
     res := res;
     proxyReq_destroyed := false;
     proxyRes := false;
     piped := existsb (String.eqb (method req)) ["POST"; "PUT"; "PATCH"];
     promise := Pending |}.

(** ** handlePaymentGatewayProxy (lines 56-84) *)

(** [PAYMENT_GATEWAYS[gateway]] for an own key. *)
Fixpoint gatewayConfig_of (entries : list (string * GatewayConfig))
    (gateway : string) : option GatewayConfig :=
  match entries with
  | [] => None
  | (k, config) :: entries =>
      if String.eqb k gateway then Some config
      else gatewayConfig_of entries gateway
  end.

Inductive Proxying :=
| NotStarted (c : Completion ServerResponse)
| Started (fw : Forwarding).

Definition handlePaymentGatewayProxy (req : IncomingMessage)
    (res : ServerResponse) (gateway targetPath : string)
    (referrer : JS.Value) : Proxying :=
  match gatewayConfig_of PAYMENT_GATEWAYS gateway with
  | Some gatewayConfig =>
      let targetUrl := target gatewayConfig +:+ targetPath in
      let customHeaders : Headers :=
        <["Host" := host gatewayConfig]>
        (<["Referer" := JS.toString referrer]> ∅) in
      Started (proxyRequest req res targetUrl customHeaders)
  | None =>
      if JS.truthy (JS.Object_prototype gateway) then
        (* an inherited property has no [target]: [new URL] throws in the
           executor and the [catch] block answers *)
        NotStarted (sendError res 500 "Proxy Error")
      else NotStarted (sendError res 400 "Invalid payment gateway")
  end.

(** ** The request listener of [start] (lines 277-285) *)

Inductive Served :=
| Answered (res : ServerResponse)
| Forwarded (fw : Forwarding).

Definition requestListener (req : IncomingMessage) (res : ServerResponse)
  : Completion Served :=
  let answered (c : Completion ServerResponse) : Completion Served :=
    match c with
    | Normal r => mret (Answered r)
    | Throw _ =>
        r ← sendError res 500 "Internal Server Error"; mret (Answered r)
    end in
  match handleRequest req res with
  | Responded c => answered c
  | GatewayProxy gateway finalPath referrer =>
      match handlePaymentGatewayProxy req res gateway finalPath referrer with
      | NotStarted c => answered c
      | Started fw => mret (Forwarded fw)
      end
  end.

(** ** setupGracefulShutdown (lines 313-337) *)

Inductive ServerError := ERR_SERVER_NOT_RUNNING.

(** A listener that [server.close(cb)] put on the server's [close]
    event from inside [shutdown]: the [shutdownTimer] its closure holds
    and the error it will hand to the callback. *)
Record CloseListener := {
  shutdownTimer : nat;
  error : option ServerError
}.

(** The process-level state: whether the server still has its listening
    handle, the number of open connections, the [close] listeners in
    registration order, the pending timers oldest first (all are armed
    with the same delay, so they expire in this order), the next timer
    identifier, the console lines written, and the exit status once
    [process.exit] was called. *)
Record Process := {
  listening : bool;
  connections : nat;
  closeListeners : list CloseListener;
  timers : list nat;
  nextTimer : nat;
  console : list string;
  exitCode : option nat
}.

(** [console.log] and [console.error]; the lines are kept without their
    leading line break and pictograph. *)
Definition log (line : string) (p : Process) : Process :=
  {| listening := listening p; connections := connections p;
     closeListeners := closeListeners p; timers := timers p;
     nextTimer := nextTimer p; console := console p ++ [line];
     exitCode := exitCode p |}.

(** [process.exit(code)] *)
Definition exit (code : nat) (p : Process) : Process :=
  {| listening := listening p; connections := connections p;
     closeListeners := closeListeners p; timers := timers p;
     nextTimer := nextTimer p; console := console p;
     exitCode := Some code |}.

(** [setTimeout(..., GRACEFUL_SHUTDOWN_TIMEOUT)] *)
Definition setTimeout (p : Process) : Process * nat :=
  ({| listening := listening p; connections := connections p;
      closeListeners := closeListeners p;
      timers := timers p ++ [nextTimer p];
      nextTimer := S (nextTimer p); console := console p;
      exitCode := exitCode p |}, nextTimer p).

Definition clearTimeout (t : nat) (p : Process) : Process :=
  {| listening := listening p; connections := connections p;
     closeListeners := closeListeners p;
     timers := filter (fun t' => t' ≠ t) (timers p);
     nextTimer := nextTimer p; console := console p;
     exitCode := exitCode p |}.

(** [this.server.close(cb)]: the callback waits for the [close] event;
    on a server that is no longer listening it will be given
    [ERR_SERVER_NOT_RUNNING]. *)
Definition server_close (t : nat) (p : Process) : Process :=
  {| listening := false; connections := connections p;
     closeListeners :=
       closeListeners p ++
       [ {| shutdownTimer := t;
            error := if listening p then None
                     else Some ERR_SERVER_NOT_RUNNING |} ];
     timers := timers p; nextTimer := nextTimer p; console := console p;
     exitCode := exitCode p |}.

(** [shutdown(signal)] (lines 314-333), up to the return of
    [server.close]. *)
Definition shutdown (signal : string) (p : Process) : Process :=
  let p := log (signal +:+ " received. Shutting down gracefully...") p in
  let '(p, shutdownTimer) := setTimeout p in
  server_close shutdownTimer p.

(** The callback given to [server.close] (lines 322-332). *)
Definition close_callback (l : CloseListener) (p : Process) : Process :=
  let p := clearTimeout (shutdownTimer l) p in
  match error l with
  | Some _ => exit 1 (log "Error during server shutdown:" p)
  | None => exit 0 (log "Server closed successfully" p)
  end.

(** The server emits [close]: the listeners run in registration order
    for as long as the process lives. *)
Fixpoint emit_close (ls : list CloseListener) (p : Process) : Process :=
  match ls with
  | [] => p
  | l :: ls =>
      match exitCode p with
      | Some _ => p
      | None => emit_close ls (close_callback l p)
      end
  end.

Definition clear_listeners (p : Process) : Process :=
  {| listening := listening p; connections := connections p;
     closeListeners := []; timers := timers p;
     nextTimer := nextTimer p; console := console p;
     exitCode := exitCode p |}.

Definition set_connections (n : nat) (p : Process) : Process :=
  {| listening := listening p; connections := n;
     closeListeners := closeListeners p; timers := timers p;
     nextTimer := nextTimer p; console := console p;
     exitCode := exitCode p |}.

(** What can happen to the process: a termination signal ([SIGINT] or
    [SIGTERM], line 335-336), a connection being accepted or ending, the
    server having drained (no handle and no connection left, so [close]
    is emitted), and the oldest pending grace timer expiring. *)
Inductive ProcessEvent :=
| Signal (name : string)
| ConnectionOpened
| ConnectionEnded
| Drained
| GraceExpired.

Definition step (ev : ProcessEvent) (p : Process) : Process :=
  match exitCode p with
  | Some _ => p
  | None =>
      match ev with
      | Signal name => shutdown name p
      | ConnectionOpened =>
          if listening p then set_connections (S (connections p)) p else p
      | ConnectionEnded => set_connections (pred (connections p)) p
      | Drained =>
          if negb (listening p) && Nat.eqb (connections p) 0 then
            emit_close (closeListeners p) (clear_listeners p)
          else p
      | GraceExpired =>
          match timers p with
          | [] => p
          | t :: _ =>
              exit 1 (log "Forced shutdown due to timeout"
                          (clearTimeout t p))
          end
      end
  end.

Definition steps (evs : list ProcessEvent) (p : Process) : Process :=
  foldl (fun p ev => step ev p) p evs.

(** The process once [start] has returned. *)
Definition started : Process :=
  {| listening := true; connections := 0; closeListeners := [];
     timers := []; nextTimer := 0; console := []; exitCode := None |}.

(** The server is draining: a first [shutdown] has run and the process
    has not exited, so the first [close] listener is the one registered
    while the server was listening and its grace timer is pending. *)
Definition draining (p : Process) : bool :=
  match exitCode p, closeListeners p, timers p with
  | None, l :: _, _ :: _ =>
      negb (listening p) && bool_decide (error l = None)
  | _, _, _ => false
  end.

(** ** Vocabulary of the properties *)

(** All header names of [hs] are in lower case, as Node delivers the
    headers of an incoming message. *)
Definition lower_case_names (hs : Headers) : Prop :=
  ∀ k, is_Some (hs !! k) → JS.toLowerCase k = k.

(** What an effective [sendError] writes on a response that has no head
    yet and is not finished. *)
Definition errorResponse (res : ServerResponse) (statusCode : nat)
    (message : string) : ServerResponse :=
  {| header := Some (statusCode, {[ "Content-Type" := "text/plain" ]});
     body := body res ++ [message];
     finished := true;
     destroyed := destroyed res |}.

(** The property names an object literal inherits. *)
Definition inherited_names : list string :=
  "constructor" :: "__proto__" :: JS.prototype_methods.



Definition corsNames : list string :=
  [ "Access-Control-Allow-Origin"; "Access-Control-Allow-Methods";
    "Access-Control-Allow-Headers" ].

(** The forwarding of [GET /vandar/v1/ipgs] for [pay.v1-domain.com]. *)
Definition sample_forwarding : Forwarding :=
  proxyRequest
    {| method := "GET"; url := "/vandar/v1/ipgs";
       headers := {[ "host" := "pay.v1-domain.com" ]} |}
    newResponse "https://ipg.vandar.io/v1/ipgs"
    (<["Host" := "ipg.vandar.io"]>
     (<["Referer" := "https://v1-domain.com/"]> ∅)).

(** A response that was ended has its head sent: Node sends the head,
    an implicit one if need be, at the latest when [end] is called. *)
Definition head_precedes_end (r : ServerResponse) : Prop :=
  finished r = true → headersSent r = true.

(** [sendError] took effect between [before] and [after]: the status
    line [statusCode] with the error headers was written, [message] was
    added to the body and the response was ended. *)
Definition wrote_error (before after : ServerResponse) (statusCode : nat)
    (message : string) : Prop :=
  header before = None
  ∧ header after = Some (statusCode, {[ "Content-Type" := "text/plain" ]})
  ∧ body after = (body before ++ [message])%list
  ∧ finished after = true.

(** The outcome of a failure listener that answers with [statusCode]
    and [message]: the error response is written exactly when no head
    was sent and the connection is not destroyed, and otherwise neither
    a status line nor a body chunk is written. *)
Definition answered_if_possible (fw fw' : Forwarding) (statusCode : nat)
    (message : string) : Prop :=
  (wrote_error (res fw) (res fw') statusCode message
   ↔ headersSent (res fw) = false ∧ destroyed (res fw) = false)
  ∧ (headersSent (res fw) || destroyed (res fw) = true →
     header (res fw') = header (res fw) ∧ body (res fw') = body (res fw)).

(** Two processes that exit alike: they have the same exit status, and
    while they live both are draining with the same open connections. *)
Definition same_fate (p q : Process) : Prop :=
  exitCode p = exitCode q
  ∧ (exitCode p = None →
     draining p = true ∧ draining q = true
     ∧ connections p = connections q).

(** The server accepts connections and no [shutdown] has run. *)
Definition accepting (p : Process) : bool :=
  match exitCode p, closeListeners p, timers p with
  | None, [], [] => listening p
  | _, _, _ => false
  end.

(** What holds of the process at every moment after [start]. *)
Definition lifecycle_inv (p : Process) : Prop :=
  match exitCode p with
  | Some code => code = 0 ∨ code = 1
  | None => accepting p = true ∨ draining p = true
  end.

(** * Properties *)

(** ** sanitizeHeaders *)

Lemma sanitizeHeaders_lookup (hs : Headers) (k : string) :
  sanitizeHeaders hs !! k =
  if decide (k ∈ HOP_BY_HOP_HEADERS) then None else hs !! k.
Proof.
  unfold sanitizeHeaders, HOP_BY_HOP_HEADERS; simpl.
  repeat (rewrite lookup_delete; case_decide;
          [ subst k;
            rewrite decide_True by (rewrite !elem_of_cons; tauto);
            reflexivity | ]).
  rewrite decide_False; [ reflexivity | ].
  rewrite !not_elem_of_cons. repeat split; try congruence.
  apply not_elem_of_nil.
Qed.

Lemma store_delete_lookup_ne (σ : Store) (l l' : nat) (key : string) :
  l ≠ l' → store_delete l key σ !! l' = σ !! l'.
Proof. intros Hne. unfold store_delete. by rewrite lookup_alter_ne. Qed.

Lemma store_delete_lookup_eq (σ : Store) (l : nat) (key : string) :
  store_delete l key σ !! l = delete key <$> σ !! l.
Proof. unfold store_delete. by rewrite lookup_alter_eq. Qed.

Lemma alloc_fresh (σ : Store) : σ !! alloc σ = None.
Proof. apply not_elem_of_dom. unfold alloc. apply is_fresh. Qed.

Lemma store_delete_all (σ : Store) (keys : list string) :
  ∀ (σ0 : Store) (h0 : Headers),
    σ0 !! alloc σ = Some h0 →
    (∀ l', is_Some (σ !! l') → σ0 !! l' = σ !! l') →
    foldl (fun σ1 header => store_delete (alloc σ) header σ1) σ0 keys
      !! alloc σ
    = Some (foldl (fun s header => delete header s) h0 keys)
    ∧ ∀ l', is_Some (σ !! l') →
        foldl (fun σ1 header => store_delete (alloc σ) header σ1)
              σ0 keys !! l' = σ !! l'.
Proof.
  induction keys as [|key keys IH]; intros σ0 h0 H0 Hrest; simpl.
  - split; assumption.
  - apply IH.
    + rewrite store_delete_lookup_eq, H0. reflexivity.
    + intros l' Hl'. rewrite store_delete_lookup_ne; [ by apply Hrest | ].
      intros E. subst l'. rewrite alloc_fresh in Hl'. by destruct Hl'.
Qed.

Lemma sanitizeHeaders_ref_spec (σ : Store) (l : nat) (hs : Headers) :
  σ !! l = Some hs →
  (sanitizeHeaders_ref σ l).1 !! (sanitizeHeaders_ref σ l).2
    = Some (sanitizeHeaders hs)
  ∧ ∀ l', is_Some (σ !! l') →
          (sanitizeHeaders_ref σ l).1 !! l' = σ !! l'.
Proof.
  intros Hl.
  apply (store_delete_all σ HOP_BY_HOP_HEADERS
           (<[alloc σ := default ∅ (σ !! l)]> σ) hs).
  - rewrite Hl. apply lookup_insert_eq.
  - intros l' Hl'. rewrite lookup_insert_ne; [ reflexivity | ].
    intros E. subst l'. rewrite alloc_fresh in Hl'. by destruct Hl'.
Qed.

Lemma hop_by_hop_lower_case (hop : string) :
  hop ∈ HOP_BY_HOP_HEADERS → JS.toLowerCase hop = hop.
Proof.
  unfold HOP_BY_HOP_HEADERS. rewrite !elem_of_cons, elem_of_nil.
  intros H. repeat (destruct H as [-> | H]; [ reflexivity | ]). destruct H.
Qed.

(** C2, as stated, fails: a hop-by-hop name written with a capital
    letter is a different property of the header object, and
    [sanitizeHeaders] leaves it in place. *)
Lemma sanitizeHeaders_keeps_capitalised_name :
  "connection" ∈ HOP_BY_HOP_HEADERS
  ∧ same_name_ci "Connection" "connection"
  ∧ sanitizeHeaders {[ "Connection" := "keep-alive" ]} !! "Connection"
    = Some "keep-alive".
Proof.
  split; [ | split ].
  - unfold HOP_BY_HOP_HEADERS. apply elem_of_cons. by left.
  - reflexivity.
  - rewrite sanitizeHeaders_lookup. rewrite decide_False.
    + apply lookup_singleton_eq.
    + unfold HOP_BY_HOP_HEADERS. rewrite !not_elem_of_cons.
      repeat split; try discriminate. apply not_elem_of_nil.
Qed.

(** C2, amended: [sanitizeHeaders] returns a new header object, the
    copy of its argument without the properties named exactly
    [connection], [upgrade], [proxy-authorization], [proxy-authenticate],
    [te], [trailer] and [transfer-encoding]; every other property is kept
    with its value, the argument itself is unchanged in the store, and
    when the argument's names are all in lower case no hop-by-hop name in
    any letter case is left. *)
Theorem sanitizeHeaders_removes_exact_names
    (σ : Store) (headers : nat) (hs : Headers) :
  σ !! headers = Some hs →
  (sanitizeHeaders_ref σ headers).1 !! (sanitizeHeaders_ref σ headers).2
    = Some (sanitizeHeaders hs)
  ∧ (sanitizeHeaders_ref σ headers).1 !! headers = Some hs
  ∧ (∀ k, k ∈ HOP_BY_HOP_HEADERS → sanitizeHeaders hs !! k = None)
  ∧ (∀ k, k ∉ HOP_BY_HOP_HEADERS → sanitizeHeaders hs !! k = hs !! k)
  ∧ (lower_case_names hs →
     ∀ k hop, hop ∈ HOP_BY_HOP_HEADERS → same_name_ci k hop →
              sanitizeHeaders hs !! k = None).
Proof.
  intros Hl.
  destruct (sanitizeHeaders_ref_spec σ headers hs Hl) as [Hnew Hold].
  split; [ exact Hnew | ].
  split; [ rewrite Hold; [ exact Hl | by rewrite Hl ] | ].
  split; [ | split ].
  - intros k Hk. rewrite sanitizeHeaders_lookup. by rewrite decide_True.
  - intros k Hk. rewrite sanitizeHeaders_lookup. by rewrite decide_False.
  - intros Hlow k hop Hhop Hci. rewrite sanitizeHeaders_lookup.
    destruct (decide (k ∈ HOP_BY_HOP_HEADERS)) as [ | Hk ]; [ reflexivity | ].
    destruct (hs !! k) as [v|] eqn:Hv; [ | reflexivity ].
    exfalso. apply Hk.
    assert (Ek : JS.toLowerCase k = k) by (apply Hlow; by rewrite Hv).
    unfold same_name_ci in Hci.
    rewrite Ek, (hop_by_hop_lower_case hop Hhop) in Hci. by subst k.
Qed.

Lemma sanitizeHeaders_removes_exact_names_witness :
  let σ : Store := {[ 0 := {[ "connection" := "keep-alive" ]} ]} in
  (sanitizeHeaders_ref σ 0).1 !! 0 = Some {[ "connection" := "keep-alive" ]}
  ∧ sanitizeHeaders {[ "connection" := "keep-alive" ]} !! "connection" = None.
Proof.
  intros σ.
  destruct (sanitizeHeaders_removes_exact_names σ 0
              {[ "connection" := "keep-alive" ]})
    as (_ & Hsame & Hgone & _).
  - reflexivity.
  - split; [ exact Hsame | ].
    apply Hgone. unfold HOP_BY_HOP_HEADERS. apply elem_of_cons. by left.
Defined.

(** ** sendError *)

Lemma headersSent_writeHead (res r : ServerResponse) statusCode hs :
  writeHead res statusCode hs = Normal r → headersSent r = true.
Proof.
  unfold writeHead. destruct (headersSent res); [ discriminate | ].
  intros [= <-]. reflexivity.
Qed.

Lemma headersSent_end_ (res : ServerResponse) data :
  headersSent (end_ res data) = headersSent res || negb (finished res).
Proof.
  unfold end_, headersSent, implicitHead.
  destruct (finished res); simpl.
  - by rewrite orb_false_r.
  - destruct (header res); reflexivity.
Qed.

Lemma headersSent_write (res r : ServerResponse) chunk :
  write res chunk = Normal r → headersSent r = true.
Proof.
  unfold write. destruct (finished res); [ discriminate | ].
  intros [= <-]. unfold headersSent, implicitHead; simpl.
  destruct (header res); reflexivity.
Qed.

Lemma sendError_guarded (res : ServerResponse) statusCode message :
  headersSent res || destroyed res = true →
  sendError res statusCode message = Normal res.
Proof. intros G. unfold sendError. by rewrite G. Qed.

(** [sendError] returns normally, and leaves a response on which a
    further [sendError] changes nothing. *)
Lemma sendError_normal (res : ServerResponse) statusCode message :
  ∃ r, sendError res statusCode message = Normal r
       ∧ headersSent r || destroyed r = true
       ∧ destroyed r = destroyed res.
Proof.
  unfold sendError.
  destruct (headersSent res || destroyed res) eqn:G.
  - exists res. by rewrite G.
  - apply orb_false_elim in G as [Hs Hd].
    unfold writeHead. rewrite Hs. simpl.
    eexists. split; [ reflexivity | ].
    rewrite headersSent_end_. split; [ reflexivity | ].
    unfold end_; simpl. by destruct (finished res).
Qed.

Lemma sendError_writes (res : ServerResponse) statusCode message :
  headersSent res = false → destroyed res = false → finished res = false →
  sendError res statusCode message
  = Normal (errorResponse res statusCode message).
Proof.
  intros Hs Hd Hf. unfold sendError, writeHead, errorResponse.
  rewrite Hs, Hd. simpl. unfold end_; simpl. rewrite Hf. reflexivity.
Qed.

(** C5: [sendError] never throws; when the head was already sent or the
    connection is destroyed it returns the response as it was; a second
    [sendError] after a first one, and a [sendError] after a streamed
    [write] or after [writeHead], change nothing. *)
Theorem sendError_at_most_once
    (res : ServerResponse) (statusCode statusCode' : nat)
    (message message' : string) :
  (∃ r, sendError res statusCode message = Normal r
        ∧ sendError r statusCode' message' = Normal r)
  ∧ (headersSent res || destroyed res = true →
     sendError res statusCode message = Normal res)
  ∧ (∀ chunk,
       (r ← write res chunk; sendError r statusCode message)
       = write res chunk)
  ∧ (∀ code hs,
       (r ← writeHead res code hs; sendError r statusCode message)
       = writeHead res code hs).
Proof.
  split; [ | split; [ | split ] ].
  - destruct (sendError_normal res statusCode message) as (r & Hr & G & _).
    exists r. split; [ exact Hr | by apply sendError_guarded ].
  - apply sendError_guarded.
  - intros chunk. destruct (write res chunk) as [r|e] eqn:W; [ | reflexivity ].
    simpl. apply sendError_guarded.
    by rewrite (headersSent_write _ _ _ W).
  - intros code hs.
    destruct (writeHead res code hs) as [r|e] eqn:W; [ | reflexivity ].
    simpl. apply sendError_guarded.
    by rewrite (headersSent_writeHead _ _ _ _ W).
Qed.

(** The first of two [sendError] calls on a new response is the one
    that is written. *)
Example sendError_twice :
  (r ← sendError newResponse 504 "Gateway Timeout";
   sendError r 500 "Proxy Error")
  = Normal (errorResponse newResponse 504 "Gateway Timeout").
Proof. reflexivity. Qed.

(** ** handleRequest *)

Lemma method_not_options (req : IncomingMessage) :
  method req ≠ "OPTIONS" → String.eqb (method req) "OPTIONS" = false.
Proof. intros H. by apply String.eqb_neq. Qed.

Lemma HOST_CONFIG_own (h referrer : string) :
  HOST_CONFIG !! h = Some referrer →
  (h = "pay.v1-domain.com" ∨ h = "pay.v2-domain.com")
  ∧ referrer = "https://v1-domain.com/".
Proof.
  unfold HOST_CONFIG. rewrite !lookup_insert, lookup_empty.
  repeat case_decide; intros [= <-]; subst; auto.
Qed.

Lemma REDIRECTION_MAP_own (h base : string) :
  REDIRECTION_MAP !! h = Some base →
  (h = "pay.v1-domain.com" ∨ h = "pay.v2-domain.com")
  ∧ base = "https://api.myapp.com".
Proof.
  unfold REDIRECTION_MAP. rewrite !lookup_insert, lookup_empty.
  repeat case_decide; intros [= <-]; subst; auto.
Qed.


Lemma Object_prototype_undefined (key : string) :
  key ∉ inherited_names → JS.Object_prototype key = JS.Undefined.
Proof.
  unfold inherited_names, JS.prototype_methods.
  rewrite !not_elem_of_cons. intros H.
  unfold JS.Object_prototype, JS.prototype_methods. simpl existsb.
  repeat (destruct H as [Hne H];
          apply String.eqb_neq in Hne; rewrite Hne; clear Hne; simpl).
  reflexivity.
Qed.

(** A host that is (as a string) the host of a known gateway client. *)
Lemma known_host_passes (h referrer : string) :
  HOST_CONFIG !! h = Some referrer →
  JS.truthy (JS.Str h) = true
  ∧ JS.get HOST_CONFIG h = JS.Str referrer
  ∧ JS.truthy (JS.Str referrer) = true.
Proof.
  intros H. unfold JS.get. rewrite H.
  apply HOST_CONFIG_own in H as [[-> | ->] ->]; auto.
Qed.

Lemma handleRequest_absent_host (req : IncomingMessage) res pathname :
  method req ≠ "OPTIONS" → headers req !! "host" = None →
  Url.parse (url req) = Normal pathname →
  handleRequest req res = Responded (sendError res 400 unrecognized_host).
Proof.
  intros Hm Hh Hp. unfold handleRequest.
  rewrite Hp, (method_not_options req Hm), Hh. reflexivity.
Qed.

Lemma handleRequest_unknown_host (req : IncomingMessage) res
    (h : string) pathname :
  method req ≠ "OPTIONS" → headers req !! "host" = Some h →
  HOST_CONFIG !! h = None → h ∉ inherited_names →
  Url.parse (url req) = Normal pathname →
  handleRequest req res = Responded (sendError res 400 unrecognized_host).
Proof.
  intros Hm Hh Hown Hinh Hp. unfold handleRequest.
  rewrite Hp, (method_not_options req Hm), Hh. simpl JS.toString.
  unfold JS.get. rewrite Hown, (Object_prototype_undefined h Hinh). simpl.
  by rewrite orb_true_r.
Qed.



(** *** CORS preflight *)




(** *** Gateway paths *)

Lemma PAYMENT_GATEWAYS_keys (gateway : string) (config : GatewayConfig) :
  (gateway, config) ∈ PAYMENT_GATEWAYS →
  gateway = "vandar" ∨ gateway = "zibal" ∨ gateway = "zarinpal".
Proof.
  unfold PAYMENT_GATEWAYS. rewrite !elem_of_cons, elem_of_nil.
  intros [H | [H | [H | []]]]; inversion H; auto.
Qed.

(** C1, as stated, fails in its second half: the path ["/vandar"] has no
    slash after the key, does not start with the prefix ["/vandar/"], and
    is redirected instead of proxied. *)
Lemma bare_gateway_key_is_not_proxied :
  let req := {| method := "POST"; url := "/vandar";
                headers := {[ "host" := "pay.v1-domain.com" ]} |} in
  handleRequest req newResponse
  = Responded (handleRedirect newResponse "https://api.myapp.com/vandar")
  ∧ handleRequest req newResponse
    ≠ GatewayProxy "vandar" "/" (JS.Str "https://v1-domain.com/").
Proof.
  assert (E : handleRequest
                {| method := "POST"; url := "/vandar";
                   headers := {[ "host" := "pay.v1-domain.com" ]} |}
                newResponse
              = Responded
                  (handleRedirect newResponse "https://api.myapp.com/vandar"))
    by (vm_compute; reflexivity).
  simpl. split; [ exact E | rewrite E; discriminate ].
Qed.

(** C1, amended: for a configured gateway key [k] and a known host, a
    request that is not OPTIONS and whose path is ["/k/" ++ p] is handed
    to the gateway proxy with key [k], path ["/" ++ p] (so ["/"] when [p]
    is empty) and the host's referrer; the path ["/k"] without the slash
    is not a gateway path and takes the redirect rule. *)
Theorem gateway_prefix_is_proxied (req : IncomingMessage)
    (res : ServerResponse) (k : string) (config : GatewayConfig)
    (h referrer p : string) :
  (k, config) ∈ PAYMENT_GATEWAYS →
  method req ≠ "OPTIONS" →
  headers req !! "host" = Some h →
  HOST_CONFIG !! h = Some referrer →
  (url req = "/" +:+ k +:+ "/" +:+ p →
   handleRequest req res
   = GatewayProxy k ("/" +:+ p) (JS.Str referrer))
  ∧ (url req = "/" +:+ k →
     ∀ base, REDIRECTION_MAP !! h = Some base →
     handleRequest req res
     = Responded (handleRedirect res (base +:+ "/" +:+ k))).
Proof.
  intros Hk Hm Hh Href.
  destruct (known_host_passes h referrer Href) as (T1 & T2 & T3).
  split.
  - intros Hu. unfold handleRequest.
    rewrite (method_not_options req Hm), Hh, Hu. simpl JS.toString.
    rewrite T1, T2, T3. simpl negb. simpl orb. cbv iota.
    apply PAYMENT_GATEWAYS_keys in Hk as [-> | [-> | ->]]; reflexivity.
  - intros Hu base Hbase. unfold handleRequest.
    rewrite (method_not_options req Hm), Hh, Hu. simpl JS.toString.
    rewrite T1, T2, T3. simpl negb. simpl orb. cbv iota.
    unfold JS.get. rewrite Hbase.
    apply REDIRECTION_MAP_own in Hbase as [_ ->].
    apply PAYMENT_GATEWAYS_keys in Hk as [-> | [-> | ->]]; reflexivity.
Qed.

Lemma gateway_prefix_is_proxied_witness :
  handleRequest
    {| method := "POST"; url := "/zibal/v1/request";
       headers := {[ "host" := "pay.v2-domain.com" ]} |} newResponse
  = GatewayProxy "zibal" "/v1/request" (JS.Str "https://v1-domain.com/").
Proof.
  apply (gateway_prefix_is_proxied
           {| method := "POST"; url := "/zibal/v1/request";
              headers := {[ "host" := "pay.v2-domain.com" ]} |}
           newResponse "zibal"
           {| target := "https://gateway.zibal.ir";
              host := "gateway.zibal.ir" |}
           "pay.v2-domain.com" "https://v1-domain.com/" "v1/request").
  - unfold PAYMENT_GATEWAYS. apply elem_of_cons. right.
    apply elem_of_cons. by left.
  - simpl. discriminate.
  - reflexivity.
  - reflexivity.
  - reflexivity.
Defined.

(** *** Redirects *)



(** An absolute-form target is matched on the pathname the parser
    extracts from it, and forwarded from the eighth character of the
    target on. *)
Example absolute_form_target_is_matched_on_its_pathname :
  handleRequest
    {| method := "GET"; url := "http://evil/vandar/x";
       headers := {[ "host" := "pay.v1-domain.com" ]} |} newResponse
  = GatewayProxy "vandar" "/evil/vandar/x" (JS.Str "https://v1-domain.com/").
Proof. vm_compute. reflexivity. Qed.

(** *** Host validation *)

(** C3 at the host name ["constructor"]: it is not a key of
    [HOST_CONFIG], yet [HOST_CONFIG["constructor"]] is the inherited
    [Object] function, which is truthy, so the request passes the host
    check; the same happens in [REDIRECTION_MAP], and the request is
    redirected (or, on a gateway path, proxied) instead of rejected. *)
Theorem inherited_name_passes_host_validation :
  HOST_CONFIG !! "constructor" = None
  ∧ handleRequest
      {| method := "GET"; url := "/x";
         headers := {[ "host" := "constructor" ]} |} newResponse
    = Responded
        (handleRedirect newResponse "function Object() { [native code] }/x")
  ∧ handleRequest
      {| method := "GET"; url := "/vandar/x";
         headers := {[ "host" := "constructor" ]} |} newResponse
    = GatewayProxy "vandar" "/x" (JS.NativeFunction "Object")
  ∧ handleRequest
      {| method := "GET"; url := "/x";
         headers := {[ "host" := "constructor" ]} |} newResponse
    ≠ Responded (sendError newResponse 400 unrecognized_host).
Proof.
  assert (E : handleRequest
                {| method := "GET"; url := "/x";
                   headers := {[ "host" := "constructor" ]} |} newResponse
              = Responded
                  (handleRedirect newResponse
                     "function Object() { [native code] }/x"))
    by (vm_compute; reflexivity).
  split; [ reflexivity | ].
  split; [ exact E | ].
  split; [ vm_compute; reflexivity | ].
  rewrite E. vm_compute. discriminate.
Qed.







(** ** proxyRequest *)

Lemma addCorsHeaders_lookup (hs : Headers) (k : string) :
  k ∉ corsNames → addCorsHeaders hs !! k = hs !! k.
Proof.
  unfold corsNames. rewrite !not_elem_of_cons. intros (H1 & H2 & H3 & _).
  unfold addCorsHeaders. rewrite !lookup_insert_ne by congruence.
  reflexivity.
Qed.

Lemma addCorsHeaders_values (hs : Headers) :
  addCorsHeaders hs !! "Access-Control-Allow-Origin" = Some "*"
  ∧ addCorsHeaders hs !! "Access-Control-Allow-Methods"
    = Some "GET, POST, PUT, DELETE, OPTIONS"
  ∧ addCorsHeaders hs !! "Access-Control-Allow-Headers"
    = Some "Content-Type, Authorization".
Proof.
  unfold addCorsHeaders. repeat split.
  - rewrite !lookup_insert_ne by discriminate. apply lookup_insert_eq.
  - rewrite lookup_insert_ne by discriminate. apply lookup_insert_eq.
  - apply lookup_insert_eq.
Qed.

Lemma hop_by_hop_not_cors (k hop : string) :
  hop ∈ HOP_BY_HOP_HEADERS → same_name_ci k hop → k ∉ corsNames.
Proof.
  intros Hhop Hci Hk. unfold same_name_ci in Hci.
  rewrite (hop_by_hop_lower_case hop Hhop) in Hci.
  unfold corsNames in Hk. rewrite !elem_of_cons, elem_of_nil in Hk.
  unfold HOP_BY_HOP_HEADERS in Hhop.
  rewrite !elem_of_cons, elem_of_nil in Hhop.
  destruct Hk as [-> | [-> | [-> | []]]];
    vm_compute in Hci; subst hop;
    repeat (destruct Hhop as [Hhop | Hhop]; [ discriminate Hhop | ]);
    destruct Hhop.
Qed.

(** C7: when the upstream response arrives and the inbound head is not
    yet sent, the listener writes the upstream status code with the
    header object [sanitizeHeaders(proxyRes.headers)] plus the three CORS
    headers: no property named as a hop-by-hop header is in it, the three
    CORS headers have their fixed values, every other upstream header is
    there with its value, and (the upstream names being in lower case, as
    Node delivers them) no hop-by-hop name in any letter case is left. *)
Theorem proxied_response_head (fw : Forwarding) (statusCode : nat)
    (hdrs : Headers) :
  headersSent (res fw) = false →
  ∃ fw' written,
    on (Response statusCode hdrs) fw = Normal fw'
    ∧ header (res fw') = Some (statusCode, written)
    ∧ written = addCorsHeaders (sanitizeHeaders hdrs)
    ∧ (∀ k, k ∈ HOP_BY_HOP_HEADERS → written !! k = None)
    ∧ written !! "Access-Control-Allow-Origin" = Some "*"
    ∧ written !! "Access-Control-Allow-Methods"
      = Some "GET, POST, PUT, DELETE, OPTIONS"
    ∧ written !! "Access-Control-Allow-Headers"
      = Some "Content-Type, Authorization"
    ∧ (∀ k, k ∉ HOP_BY_HOP_HEADERS → k ∉ corsNames →
            written !! k = hdrs !! k)
    ∧ (lower_case_names hdrs →
       ∀ k hop, hop ∈ HOP_BY_HOP_HEADERS → same_name_ci k hop →
                written !! k = None).
Proof.
  intros Hs.
  exists (gotResponse
            (set_res fw
               {| header :=
                    Some (statusCode, addCorsHeaders (sanitizeHeaders hdrs));
                  body := body (res fw);
                  finished := finished (res fw);
                  destroyed := destroyed (res fw) |})),
         (addCorsHeaders (sanitizeHeaders hdrs)).
  split. { unfold on, writeHead. rewrite Hs. reflexivity. }
  split; [ reflexivity | ].
  split; [ reflexivity | ].
  split.
  { intros k Hk. rewrite addCorsHeaders_lookup.
    - rewrite sanitizeHeaders_lookup. by rewrite decide_True.
    - apply (hop_by_hop_not_cors k k Hk). reflexivity. }
  split; [ apply addCorsHeaders_values | ].
  split; [ apply addCorsHeaders_values | ].
  split; [ apply addCorsHeaders_values | ].
  split.
  { intros k Hk Hc. rewrite addCorsHeaders_lookup by exact Hc.
    rewrite sanitizeHeaders_lookup. by rewrite decide_False. }
  intros Hlow k hop Hhop Hci.
  rewrite addCorsHeaders_lookup by exact (hop_by_hop_not_cors k hop Hhop Hci).
  rewrite sanitizeHeaders_lookup.
  destruct (decide (k ∈ HOP_BY_HOP_HEADERS)) as [ | Hk ]; [ reflexivity | ].
  destruct (hdrs !! k) as [v|] eqn:Hv; [ | reflexivity ].
  exfalso. apply Hk.
  assert (Ek : JS.toLowerCase k = k) by (apply Hlow; by rewrite Hv).
  unfold same_name_ci in Hci.
  rewrite Ek, (hop_by_hop_lower_case hop Hhop) in Hci. by subst k.
Qed.

Lemma proxied_response_head_witness :
  ∃ fw' written,
    on (Response 200 {[ "connection" := "keep-alive" ]}) sample_forwarding
    = Normal fw'
    ∧ header (res fw') = Some (200, written)
    ∧ written !! "connection" = None.
Proof.
  destruct (proxied_response_head sample_forwarding 200
              {[ "connection" := "keep-alive" ]})
    as (fw' & written & Hon & Hhead & _ & Hhop & _).
  - reflexivity.
  - exists fw', written. split; [ exact Hon | split; [ exact Hhead | ] ].
    apply Hhop. unfold HOP_BY_HOP_HEADERS. apply elem_of_cons. by left.
Defined.

(** *** Failures of a forwarding *)

Lemma sendError_outcome (r0 : ServerResponse) statusCode message :
  head_precedes_end r0 →
  ∃ r, sendError r0 statusCode message = Normal r
       ∧ headersSent r || destroyed r = true
       ∧ (wrote_error r0 r statusCode message
          ↔ headersSent r0 = false ∧ destroyed r0 = false)
       ∧ (headersSent r0 || destroyed r0 = true → r = r0).
Proof.
  intros Hwf. unfold sendError, wrote_error.
  destruct (headersSent r0 || destroyed r0) eqn:G.
  - exists r0. split; [ reflexivity | ]. split; [ exact G | ].
    split; [ | reflexivity ]. split.
    + intros (Hn & Hw & _). rewrite Hn in Hw. discriminate.
    + intros [Hs Hd]. rewrite Hs, Hd in G. discriminate.
  - apply orb_false_elim in G as [Hs Hd].
    assert (Hf : finished r0 = false).
    { destruct (finished r0) eqn:Hf; [ | reflexivity ].
      rewrite (Hwf Hf) in Hs. discriminate Hs. }
    unfold writeHead. rewrite Hs. simpl. eexists.
    split; [ reflexivity | ].
    rewrite headersSent_end_. split; [ reflexivity | ].
    split; [ | discriminate ].
    split; [ auto | intros _ ].
    unfold headersSent in Hs.
    destruct (header r0) eqn:Hh; [ discriminate | ].
    unfold end_; simpl. rewrite Hf. simpl. repeat split; reflexivity.
Qed.

Lemma reject_after_sendError (fw : Forwarding) :
  headersSent (res fw) || destroyed (res fw) = true →
  ∃ fw', reject fw = Normal fw'
         ∧ res fw' = res fw
         ∧ proxyReq_destroyed fw' = proxyReq_destroyed fw.
Proof.
  intros G. unfold reject. destruct (promise fw).
  - rewrite (sendError_guarded _ _ _ G). simpl. eexists.
    split; [ reflexivity | split; reflexivity ].
  - exists fw. auto.
  - exists fw. auto.
Qed.

Lemma fail_with (fw : Forwarding) (statusCode : nat) (message : string) :
  head_precedes_end (res fw) →
  ∃ fw',
    (r ← sendError (res fw) statusCode message; reject (set_res fw r))
    = Normal fw'
    ∧ proxyReq_destroyed fw' = proxyReq_destroyed fw
    ∧ answered_if_possible fw fw' statusCode message.
Proof.
  intros Hwf.
  destruct (sendError_outcome (res fw) statusCode message Hwf)
    as (r & Hr & G & Hiff & Hsame).
  rewrite Hr. simpl.
  destruct (reject_after_sendError (set_res fw r) G) as (fw' & Hrej & Hres & Hd).
  exists fw'. split; [ exact Hrej | ]. simpl in Hres, Hd.
  split; [ exact Hd | ].
  unfold answered_if_possible. rewrite Hres. split; [ assumption | ].
  intros Hg. by rewrite (Hsame Hg).
Qed.

(** C6, as stated, fails: when the inbound connection is already
    destroyed, the timeout listener writes no 504 although no response
    byte was written before. *)
Lemma timeout_after_disconnect_writes_nothing :
  ∃ fw fw',
    run [SocketClosed] sample_forwarding = Normal fw
    ∧ header (res fw) = None ∧ body (res fw) = []
    ∧ on ProxyReqTimeout fw = Normal fw'
    ∧ proxyReq_destroyed fw' = true
    ∧ header (res fw') = None ∧ body (res fw') = [].
Proof.
  eexists. eexists.
  split; [ reflexivity | ].
  repeat split; reflexivity.
Qed.

(** C6, amended: the timeout listener destroys the outbound request and
    writes the 504 response (status line, [Content-Type: text/plain],
    the text, end of response) if and only if no inbound head has been
    sent and the inbound connection is not destroyed; the error listeners
    of the outbound request and of the upstream response write the 500
    response under the same condition; in every other case no second
    status line and no further body chunk is written, also not by the
    [catch] block that runs on the rejection. *)
Theorem failure_is_answered_once_if_possible (fw : Forwarding) :
  head_precedes_end (res fw) →
  (∃ fw', on ProxyReqTimeout fw = Normal fw'
          ∧ proxyReq_destroyed fw' = true
          ∧ answered_if_possible fw fw' 504 "Gateway Timeout")
  ∧ (∃ fw', on ProxyReqError fw = Normal fw'
            ∧ answered_if_possible fw fw' 500 "Internal Server Error")
  ∧ (proxyRes fw = true →
     ∃ fw', on ProxyResError fw = Normal fw'
            ∧ answered_if_possible fw fw' 500 "Internal Server Error").
Proof.
  intros Hwf. split; [ | split ].
  - destruct (fail_with (destroy fw) 504 "Gateway Timeout" Hwf)
      as (fw' & H & Hd & Hans).
    exists fw'. split; [ exact H | split; [ exact Hd | exact Hans ] ].
  - destruct (fail_with fw 500 "Internal Server Error" Hwf)
      as (fw' & H & _ & Hans).
    exists fw'. split; [ exact H | exact Hans ].
  - intros Hp.
    destruct (fail_with fw 500 "Internal Server Error" Hwf)
      as (fw' & H & _ & Hans).
    exists fw'. split; [ | exact Hans ].
    unfold on. rewrite Hp. exact H.
Qed.

Lemma failure_is_answered_once_if_possible_witness :
  ∃ fw', on ProxyReqTimeout sample_forwarding = Normal fw'
         ∧ proxyReq_destroyed fw' = true
         ∧ wrote_error (res sample_forwarding) (res fw') 504 "Gateway Timeout".
Proof.
  destruct (failure_is_answered_once_if_possible sample_forwarding)
    as ((fw' & Hon & Hd & Hiff & _) & _).
  - intros H. discriminate H.
  - exists fw'. split; [ exact Hon | ]. split; [ exact Hd | ].
    apply Hiff. split; reflexivity.
Defined.

(** A timeout before any upstream response writes the 504 and nothing
    after it; after the upstream head was relayed, a timeout writes no
    second head. *)
Example timeout_before_response :
  ∃ fw', run [ProxyReqTimeout; ProxyReqError] sample_forwarding = Normal fw'
         ∧ res fw' = errorResponse newResponse 504 "Gateway Timeout"
         ∧ proxyReq_destroyed fw' = true.
Proof. eexists. split; [ reflexivity | split; reflexivity ]. Qed.

Example timeout_after_response :
  ∃ fw', run [Response 200 ∅; ProxyResData "{"; ProxyReqTimeout]
             sample_forwarding = Normal fw'
         ∧ header (res fw') = Some (200, addCorsHeaders ∅)
         ∧ body (res fw') = ["{"]
         ∧ finished (res fw') = false.
Proof. eexists. split; [ reflexivity | repeat split; reflexivity ]. Qed.

(** ** Shutdown *)

Lemma draining_inv (p : Process) :
  draining p = true →
  exitCode p = None ∧ listening p = false
  ∧ ∃ l ls t ts, closeListeners p = l :: ls ∧ error l = None
                 ∧ timers p = t :: ts.
Proof.
  unfold draining.
  destruct (exitCode p); [ discriminate | ].
  destruct (closeListeners p) as [|l ls]; [ discriminate | ].
  destruct (timers p) as [|t ts]; [ discriminate | ].
  intros H. apply andb_true_iff in H as [Hl He].
  apply negb_true_iff in Hl. apply bool_decide_eq_true in He.
  repeat split; try assumption. by exists l, ls, t, ts.
Qed.

Lemma draining_shutdown (p : Process) (name : string) :
  draining p = true → draining (shutdown name p) = true.
Proof.
  intros H. apply draining_inv in H as (He & Hl & l & ls & t & ts & Hls & Herr & Hts).
  unfold draining, shutdown, server_close, setTimeout, log; simpl.
  rewrite He, Hls, Hts. simpl. by rewrite Herr.
Qed.

Lemma exitCode_shutdown (p : Process) (name : string) :
  exitCode (shutdown name p) = exitCode p.
Proof. reflexivity. Qed.

Lemma draining_drained (p : Process) :
  draining p = true → connections p = 0 →
  exitCode (step Drained p) = Some 0.
Proof.
  intros H Hc. apply draining_inv in H as (He & Hl & l & ls & t & ts & Hls & Herr & Hts).
  unfold step. rewrite He, Hl, Hc, Hls. simpl. rewrite He.
  unfold close_callback. rewrite Herr. destruct ls; reflexivity.
Qed.

Lemma draining_grace_expired (p : Process) :
  draining p = true → exitCode (step GraceExpired p) = Some 1.
Proof.
  intros H. apply draining_inv in H as (He & Hl & l & ls & t & ts & Hls & Herr & Hts).
  unfold step. rewrite He, Hts. reflexivity.
Qed.

Lemma draining_set_connections (n : nat) (p : Process) :
  draining (set_connections n p) = draining p.
Proof. reflexivity. Qed.

Lemma step_same_fate (ev : ProcessEvent) (p q : Process) :
  same_fate p q → same_fate (step ev p) (step ev q).
Proof.
  intros [He Hlive].
  destruct (exitCode p) as [c|] eqn:Hp.
  - unfold step. rewrite Hp, <- He. split; [ congruence | ].
    rewrite Hp. discriminate.
  - destruct (Hlive eq_refl) as (Dp & Dq & Hc).
    destruct ev.
    + unfold step. rewrite Hp, <- He. split.
      * by rewrite !exitCode_shutdown, Hp, <- He.
      * intros _. repeat split; try by apply draining_shutdown.
        exact Hc.
    + apply draining_inv in Dp as Ip. apply draining_inv in Dq as Iq.
      destruct Ip as (_ & Lp & _). destruct Iq as (_ & Lq & _).
      unfold step. rewrite Hp, <- He, Lp, Lq.
      split; [ congruence | intros _; auto ].
    + unfold step. rewrite Hp, <- He. split.
      * simpl. congruence.
      * intros _. rewrite !draining_set_connections. simpl.
        repeat split; try assumption. by rewrite Hc.
    + destruct (connections p) as [|n] eqn:Hn.
      * unfold same_fate. rewrite (draining_drained p Dp Hn).
        rewrite (draining_drained q Dq) by congruence.
        split; [ reflexivity | discriminate ].
      * apply draining_inv in Dp as Ip. apply draining_inv in Dq as Iq.
        destruct Ip as (_ & Lp & _). destruct Iq as (_ & Lq & _).
        unfold step. rewrite Hp, <- He, Lp, Lq, <- Hc, Hn. simpl.
        split; [ congruence | intros _; rewrite Hn; auto ].
    + unfold same_fate.
      rewrite (draining_grace_expired p Dp), (draining_grace_expired q Dq).
      split; [ reflexivity | discriminate ].
Qed.

Lemma steps_same_fate (evs : list ProcessEvent) :
  ∀ p q, same_fate p q → same_fate (steps evs p) (steps evs q).
Proof.
  induction evs as [|ev evs IH]; intros p q H; simpl.
  - exact H.
  - apply IH. by apply step_same_fate.
Qed.

(** C9, as stated, fails: a second signal while the server is draining
    runs [shutdown] again; it writes a console line, arms a second grace
    timer and gives [server.close] a second callback. *)
Lemma second_signal_is_not_a_no_op :
  let p := step (Signal "SIGTERM") started in
  draining p = true
  ∧ step (Signal "SIGINT") p ≠ p
  ∧ timers p = [0]
  ∧ timers (step (Signal "SIGINT") p) = [0; 1]
  ∧ closeListeners (step (Signal "SIGINT") p)
    = [ {| shutdownTimer := 0; error := None |};
        {| shutdownTimer := 1; error := Some ERR_SERVER_NOT_RUNNING |} ]
  ∧ console (step (Signal "SIGINT") p)
    = [ "SIGTERM received. Shutting down gracefully...";
        "SIGINT received. Shutting down gracefully..." ].
Proof.
  simpl. repeat split; try reflexivity.
  intros E. apply (f_equal timers) in E. discriminate E.
Qed.

(** C9, amended: a termination signal that arrives while the server is
    draining runs [shutdown] again (one more console line, one more grace
    timer, one more [close] callback) but does not change how the process
    exits: after any further events the exit status is the one the
    process would have had without that signal; when the drain completes
    the first callback exits with status 0, and when the grace timer
    expires first the process exits with status 1. *)
Theorem repeated_signal_keeps_exit_status (p : Process) (name : string) :
  draining p = true →
  console (step (Signal name) p)
    = (console p ++ [name +:+ " received. Shutting down gracefully..."])%list
  ∧ timers (step (Signal name) p) = (timers p ++ [nextTimer p])%list
  ∧ length (closeListeners (step (Signal name) p))
    = S (length (closeListeners p))
  ∧ (∀ evs, exitCode (steps evs (step (Signal name) p))
            = exitCode (steps evs p))
  ∧ (connections p = 0 →
     exitCode (step Drained (step (Signal name) p)) = Some 0)
  ∧ exitCode (step GraceExpired (step (Signal name) p)) = Some 1.
Proof.
  intros D. pose proof (draining_inv p D) as (He & _).
  assert (S1 : step (Signal name) p = shutdown name p)
    by (unfold step; by rewrite He).
  rewrite S1.
  split; [ reflexivity | ].
  split; [ reflexivity | ].
  split.
  { unfold shutdown, server_close; simpl. rewrite length_app. simpl. lia. }
  split.
  { intros evs. apply (steps_same_fate evs). split.
    - apply exitCode_shutdown.
    - intros _. repeat split; [ by apply draining_shutdown | exact D ]. }
  split.
  - intros Hc. apply draining_drained; [ by apply draining_shutdown | exact Hc ].
  - apply draining_grace_expired. by apply draining_shutdown.
Qed.

Lemma repeated_signal_keeps_exit_status_witness :
  exitCode (steps [Signal "SIGINT"; Signal "SIGTERM"; Drained]
                  (step (Signal "SIGTERM") started))
  = Some 0.
Proof.
  destruct (repeated_signal_keeps_exit_status
              (step (Signal "SIGTERM") started) "SIGINT")
    as (_ & _ & _ & Hsame & _).
  - reflexivity.
  - exact (Hsame [Signal "SIGTERM"; Drained]).
Defined.

(** * Further properties *)

(** ** sanitizeHeaders, composed *)

(** X1: sanitizing twice is sanitizing once, the result only ever lacks
    entries of the argument, and the CORS headers added to a proxied
    response are not hop-by-hop names, so adding them before or after
    sanitizing gives the same header object. *)
Theorem sanitizeHeaders_idempotent (hs : Headers) :
  sanitizeHeaders (sanitizeHeaders hs) = sanitizeHeaders hs
  ∧ sanitizeHeaders hs ⊆ hs
  ∧ sanitizeHeaders (addCorsHeaders hs) = addCorsHeaders (sanitizeHeaders hs).
Proof.
  split; [ | split ].
  - apply map_eq. intros k. rewrite !sanitizeHeaders_lookup.
    by destruct (decide (k ∈ HOP_BY_HOP_HEADERS)).
  - apply map_subseteq_spec. intros k v. rewrite sanitizeHeaders_lookup.
    destruct (decide (k ∈ HOP_BY_HOP_HEADERS)); [ discriminate | auto ].
  - apply map_eq. intros k. rewrite sanitizeHeaders_lookup.
    destruct (decide (k ∈ HOP_BY_HOP_HEADERS)) as [Hk | Hk].
    + rewrite addCorsHeaders_lookup
        by (apply (hop_by_hop_not_cors k k Hk); reflexivity).
      rewrite sanitizeHeaders_lookup. by rewrite decide_True.
    + destruct (decide (k ∈ corsNames)) as [Hc | Hc].
      * unfold corsNames in Hc. rewrite !elem_of_cons, elem_of_nil in Hc.
        destruct (addCorsHeaders_values hs) as (V1 & V2 & V3).
        destruct (addCorsHeaders_values (sanitizeHeaders hs))
          as (W1 & W2 & W3).
        destruct Hc as [-> | [-> | [-> | []]]]; congruence.
      * rewrite !addCorsHeaders_lookup by exact Hc.
        rewrite sanitizeHeaders_lookup. by rewrite decide_False.
Qed.

(** ** The outbound request *)

(** X2: the headers of the outbound request are the sanitized inbound
    headers overridden by the custom headers, with [connection] forced to
    [close]: a custom header always wins, an inbound hop-by-hop header is
    never forwarded, and every other inbound header is forwarded with its
    value. *)
Theorem outbound_headers (req : IncomingMessage) (r : ServerResponse)
    (targetUrl : string) (customHeaders : Headers) :
  let hs := opt_headers (options (proxyRequest req r targetUrl customHeaders)) in
  hs !! "connection" = Some "close"
  ∧ (∀ k v, k ≠ "connection" → customHeaders !! k = Some v →
            hs !! k = Some v)
  ∧ (∀ k, k ≠ "connection" → k ∈ HOP_BY_HOP_HEADERS →
          customHeaders !! k = None → hs !! k = None)
  ∧ (∀ k, k ∉ HOP_BY_HOP_HEADERS → customHeaders !! k = None →
          hs !! k = headers req !! k).
Proof.
  simpl. split; [ apply lookup_insert_eq | ]. split; [ | split ].
  - intros k v Hk Hc. rewrite lookup_insert_ne by congruence.
    by apply lookup_union_Some_l.
  - intros k Hk Hhop Hc. rewrite lookup_insert_ne by congruence.
    rewrite lookup_union_r by exact Hc.
    rewrite sanitizeHeaders_lookup. by rewrite decide_True.
  - intros k Hhop Hc.
    assert (Hk : k ≠ "connection").
    { intros ->. apply Hhop. unfold HOP_BY_HOP_HEADERS.
      apply elem_of_cons. by left. }
    rewrite lookup_insert_ne by congruence.
    rewrite lookup_union_r by exact Hc.
    rewrite sanitizeHeaders_lookup. by rewrite decide_False.
Qed.

(** ** From the request to the forwarding *)

Lemma handleRequest_gateway_path (req : IncomingMessage)
    (r : ServerResponse) (k : string) (config : GatewayConfig)
    (h referrer p : string) :
  (k, config) ∈ PAYMENT_GATEWAYS →
  method req ≠ "OPTIONS" →
  headers req !! "host" = Some h →
  HOST_CONFIG !! h = Some referrer →
  url req = "/" +:+ k +:+ "/" +:+ p →
  handleRequest req r = GatewayProxy k ("/" +:+ p) (JS.Str referrer).
Proof.
  intros Hk Hm Hh Href Hu.
  destruct (known_host_passes h referrer Href) as (T1 & T2 & T3).
  unfold handleRequest.
  rewrite (method_not_options req Hm), Hh, Hu. simpl JS.toString.
  rewrite T1, T2, T3. simpl negb. simpl orb. cbv iota.
  apply PAYMENT_GATEWAYS_keys in Hk as [-> | [-> | ->]]; reflexivity.
Qed.

Lemma gatewayConfig_of_configured (k : string) (config : GatewayConfig) :
  (k, config) ∈ PAYMENT_GATEWAYS →
  gatewayConfig_of PAYMENT_GATEWAYS k = Some config.
Proof.
  unfold PAYMENT_GATEWAYS. rewrite !elem_of_cons, elem_of_nil.
  intros [H | [H | [H | []]]]; inversion H; reflexivity.
Qed.

(** X3: a request that is not OPTIONS, for a known host, with path
    ["/k/" ++ p] for a configured gateway [k], starts a forwarding to the
    gateway's target followed by ["/" ++ p], with the request's method, the
    gateway's [Host], the host's referrer as [Referer] and
    [connection: close]; nothing is written to the inbound response and
    the outbound request is live. *)
Theorem gateway_request_is_forwarded (req : IncomingMessage)
    (r : ServerResponse) (k : string) (config : GatewayConfig)
    (h referrer p : string) :
  (k, config) ∈ PAYMENT_GATEWAYS →
  method req ≠ "OPTIONS" →
  headers req !! "host" = Some h →
  HOST_CONFIG !! h = Some referrer →
  url req = "/" +:+ k +:+ "/" +:+ p →
  ∃ fw, requestListener req r = Normal (Forwarded fw)
        ∧ href (options fw) = target config +:+ "/" +:+ p
        ∧ opt_method (options fw) = method req
        ∧ timeout (options fw) = REQUEST_TIMEOUT
        ∧ opt_headers (options fw) !! "Host" = Some (host config)
        ∧ opt_headers (options fw) !! "Referer" = Some referrer
        ∧ opt_headers (options fw) !! "connection" = Some "close"
        ∧ res fw = r
        ∧ promise fw = Pending
        ∧ proxyReq_destroyed fw = false.
Proof.
  intros Hk Hm Hh Href Hu.
  unfold requestListener.
  rewrite (handleRequest_gateway_path req r k config h referrer p
             Hk Hm Hh Href Hu).
  unfold handlePaymentGatewayProxy.
  rewrite (gatewayConfig_of_configured k config Hk).
  eexists. split; [ reflexivity | ].
  simpl. repeat split.
  - rewrite lookup_insert_ne by discriminate.
    apply lookup_union_Some_l. apply lookup_insert_eq.
  - rewrite lookup_insert_ne by discriminate.
    apply lookup_union_Some_l.
    rewrite lookup_insert_ne by discriminate. apply lookup_insert_eq.
  - apply lookup_insert_eq.
Qed.

Lemma gateway_request_is_forwarded_witness :
  ∃ fw,
    requestListener
      {| method := "GET"; url := "/vandar/v1/ipgs";
         headers := {[ "host" := "pay.v1-domain.com" ]} |} newResponse
    = Normal (Forwarded fw)
    ∧ href (options fw) = "https://ipg.vandar.io/v1/ipgs"
    ∧ opt_headers (options fw) !! "Host" = Some "ipg.vandar.io"
    ∧ opt_headers (options fw) !! "Referer" = Some "https://v1-domain.com/".
Proof.
  destruct (gateway_request_is_forwarded
              {| method := "GET"; url := "/vandar/v1/ipgs";
                 headers := {[ "host" := "pay.v1-domain.com" ]} |}
              newResponse "vandar"
              {| target := "https://ipg.vandar.io"; host := "ipg.vandar.io" |}
              "pay.v1-domain.com" "https://v1-domain.com/" "v1/ipgs")
    as (fw & H & Hhref & _ & _ & Hhost & Href & _).
  - unfold PAYMENT_GATEWAYS. apply elem_of_cons. by left.
  - simpl. discriminate.
  - reflexivity.
  - reflexivity.
  - reflexivity.
  - exists fw. repeat split; assumption.
Defined.

Lemma gatewayLoop_Some entries (pathname originalPath g fp : string) :
  gatewayLoop entries pathname originalPath = Some (g, fp) →
  (∃ config, (g, config) ∈ entries)
  ∧ JS.startsWith pathname ("/" +:+ g +:+ "/") = true
  ∧ JS.startsWith fp "/" = true.
Proof.
  induction entries as [|[gateway config] entries IH]; cbn [gatewayLoop].
  - discriminate.
  - set (pathPrefix := "/" +:+ gateway +:+ "/").
    set (targetPath :=
           JS.substring originalPath (String.length pathPrefix - 1)).
    destruct (JS.startsWith pathname pathPrefix) eqn:Hp.
    + clear IH. intros H.
      assert (Hg : gateway = g) by congruence.
      assert (Hf : (if JS.startsWith targetPath "/" then targetPath
                    else "/" +:+ targetPath) = fp) by congruence.
      clear H. subst g. split; [ | split ].
      * exists config. apply elem_of_cons. by left.
      * exact Hp.
      * rewrite <- Hf.
        destruct (JS.startsWith targetPath "/") eqn:Ht;
          [ exact Ht | reflexivity ].
    + intros H. destruct (IH H) as ([c Hc] & H1 & H2).
      split; [ | split; assumption ].
      exists c. apply elem_of_cons. by right.
Qed.

(** X4: whatever the request, when [handleRequest] hands it to the
    gateway proxy the gateway is a configured one, the pathname starts
    with its prefix, the path to forward starts with a slash (also when
    the slash after the key was written as a backslash) and the referrer
    is truthy; so [handlePaymentGatewayProxy] starts a forwarding and its
    answer 400 "Invalid payment gateway" is never given. *)
Theorem dispatched_gateway_is_configured (req : IncomingMessage)
    (r : ServerResponse) (g fp : string) (referrer : JS.Value) :
  handleRequest req r = GatewayProxy g fp referrer →
  (∃ config, (g, config) ∈ PAYMENT_GATEWAYS)
  ∧ (∃ pathname, Url.parse (url req) = Normal (Some pathname)
                 ∧ JS.startsWith pathname ("/" +:+ g +:+ "/") = true)
  ∧ JS.startsWith fp "/" = true
  ∧ JS.truthy referrer = true
  ∧ ∃ fw, handlePaymentGatewayProxy req r g fp referrer = Started fw.
Proof.
  unfold handleRequest.
  destruct (Url.parse (url req)) as [[pathname|]|e]; [ | | discriminate ].
  2: { destruct (String.eqb (method req) "OPTIONS"); [ discriminate | ].
       destruct (negb _ || negb _); discriminate. }
  destruct (String.eqb (method req) "OPTIONS"); [ discriminate | ].
  destruct (negb _ || negb _) eqn:G; [ discriminate | ].
  apply orb_false_elim in G as [_ G]. apply negb_false_iff in G.
  destruct (gatewayLoop PAYMENT_GATEWAYS pathname (url req))
    as [[g' fp']|] eqn:L.
  - intros [= -> -> <-].
    destruct (gatewayLoop_Some _ _ _ _ _ L) as ([config Hc] & Hp & Hf).
    split; [ by exists config | ].
    split; [ by exists pathname | ].
    split; [ exact Hf | ]. split; [ exact G | ].
    unfold handlePaymentGatewayProxy.
    rewrite (gatewayConfig_of_configured g config Hc). by eexists.
  - destruct (JS.truthy (JS.get REDIRECTION_MAP _)); intros H; discriminate H.
Qed.

Lemma dispatched_gateway_is_configured_witness :
  handleRequest
    {| method := "GET"; url := "/vandar\v1";
       headers := {[ "host" := "pay.v1-domain.com" ]} |} newResponse
  = GatewayProxy "vandar" "/\v1" (JS.Str "https://v1-domain.com/")
  ∧ JS.startsWith "/\v1" "/" = true.
Proof.
  split; [ reflexivity | ].
  apply (dispatched_gateway_is_configured
           {| method := "GET"; url := "/vandar\v1";
              headers := {[ "host" := "pay.v1-domain.com" ]} |}
           newResponse "vandar" "/\v1" (JS.Str "https://v1-domain.com/")).
  reflexivity.
Defined.

(** ** Host validation, in full *)

(** X5: a request that is not OPTIONS, whose target [url.parse]
    accepts and whose Host header is absent, empty, or neither a key of
    [HOST_CONFIG] nor the name of a property every object inherits, gets
    [sendError(res, 400, "Bad Request: Unrecognized host")] whatever the
    pathname; on a new response that is the status 400 with
    [Content-Type: text/plain] and that text as body. *)
Theorem unrecognized_host_is_rejected (req : IncomingMessage)
    (pathname : option string) :
  method req ≠ "OPTIONS" →
  Url.modelled (url req) = true →
  Url.parse (url req) = Normal pathname →
  (headers req !! "host" = None
   ∨ headers req !! "host" = Some ""
   ∨ ∃ h, headers req !! "host" = Some h
          ∧ HOST_CONFIG !! h = None ∧ h ∉ inherited_names) →
  (∀ r, handleRequest req r = Responded (sendError r 400 unrecognized_host))
  ∧ requestListener req newResponse
    = Normal (Answered (errorResponse newResponse 400 unrecognized_host)).
Proof.
  intros Hm _ Hp Hh.
  assert (E : ∀ r, handleRequest req r
                   = Responded (sendError r 400 unrecognized_host)).
  { intros r. destruct Hh as [Hh | [Hh | (h & Hh & Hown & Hinh)]].
    - by apply (handleRequest_absent_host req r pathname).
    - unfold handleRequest.
      rewrite Hp, (method_not_options req Hm), Hh. reflexivity.
    - by apply (handleRequest_unknown_host req r h pathname). }
  split; [ exact E | ].
  unfold requestListener. rewrite E. reflexivity.
Qed.

Lemma unrecognized_host_is_rejected_witness :
  requestListener
    {| method := "GET"; url := "/anything";
       headers := {[ "host" := "unknown.example.com" ]} |} newResponse
  = Normal (Answered (errorResponse newResponse 400 unrecognized_host)).
Proof.
  apply (unrecognized_host_is_rejected
           {| method := "GET"; url := "/anything";
              headers := {[ "host" := "unknown.example.com" ]} |}
           (Some "/anything")).
  - simpl. discriminate.
  - reflexivity.
  - reflexivity.
  - right. right. exists "unknown.example.com".
    split; [ reflexivity | ]. split; [ reflexivity | ].
    unfold inherited_names, JS.prototype_methods.
    rewrite !not_elem_of_cons. repeat split; try discriminate.
    apply not_elem_of_nil.
Defined.

Lemma HOST_CONFIG_None (h : string) :
  HOST_CONFIG !! h = None →
  h ≠ "pay.v1-domain.com" ∧ h ≠ "pay.v2-domain.com".
Proof.
  intros H. split; intros ->; discriminate H.
Qed.

Lemma validated_host_has_redirect_target (h : string) :
  JS.truthy (JS.get HOST_CONFIG h) = true →
  JS.truthy (JS.get REDIRECTION_MAP h) = true
  ∧ (is_Some (HOST_CONFIG !! h) →
     JS.get REDIRECTION_MAP h = JS.Str "https://api.myapp.com")
  ∧ (HOST_CONFIG !! h = None →
     JS.get REDIRECTION_MAP h = JS.Object_prototype h).
Proof.
  unfold JS.get at 1. destruct (HOST_CONFIG !! h) as [referrer|] eqn:Hown.
  - intros _. apply HOST_CONFIG_own in Hown as [[-> | ->] _];
      (split; [ reflexivity | split; [ reflexivity | intros H; discriminate H ] ]).
  - intros Ht. apply HOST_CONFIG_None in Hown as [H1 H2].
    assert (E : JS.get REDIRECTION_MAP h = JS.Object_prototype h).
    { unfold JS.get, REDIRECTION_MAP.
      rewrite !lookup_insert_ne by congruence. by rewrite lookup_empty. }
    rewrite E. split; [ exact Ht | ].
    split; [ intros [? H]; discriminate H | reflexivity ].
Qed.

(** X6: a request that is not OPTIONS, whose target [url.parse]
    accepts, that has passed the host check and whose pathname matches
    no gateway prefix is always redirected: every host the check lets
    through has a truthy [REDIRECTION_MAP] entry (the configured base
    for a configured host, the inherited property otherwise), so the
    answer 400 "No redirect target configured" is never given. *)
Theorem validated_request_is_redirected (req : IncomingMessage)
    (r : ServerResponse) (h pathname : string) :
  method req ≠ "OPTIONS" →
  headers req !! "host" = Some h →
  JS.truthy (JS.get HOST_CONFIG h) = true →
  Url.modelled (url req) = true →
  Url.parse (url req) = Normal (Some pathname) →
  gatewayLoop PAYMENT_GATEWAYS pathname (url req) = None →
  handleRequest req r
  = Responded
      (handleRedirect r (JS.toString (JS.get REDIRECTION_MAP h) +:+ url req))
  ∧ (is_Some (HOST_CONFIG !! h) →
     JS.get REDIRECTION_MAP h = JS.Str "https://api.myapp.com")
  ∧ (HOST_CONFIG !! h = None →
     JS.get REDIRECTION_MAP h = JS.Object_prototype h).
Proof.
  intros Hm Hh Ht _ Hp Hl.
  destruct (validated_host_has_redirect_target h Ht) as (Tr & Hown & Hinh).
  split; [ | split; assumption ].
  assert (Hne : JS.truthy (JS.Str h) = true).
  { destruct (String.eqb_spec h "") as [-> | Hne].
    - discriminate Ht.
    - simpl. by apply negb_true_iff, String.eqb_neq. }
  unfold handleRequest.
  rewrite Hp, (method_not_options req Hm), Hh. simpl JS.toString.
  rewrite Hne, Ht. simpl negb. simpl orb. cbv iota.
  rewrite Hl, Tr. reflexivity.
Qed.

Lemma validated_request_is_redirected_witness :
  handleRequest
    {| method := "GET"; url := "/dashboard";
       headers := {[ "host" := "valueOf" ]} |} newResponse
  = Responded
      (handleRedirect newResponse
         "function valueOf() { [native code] }/dashboard").
Proof.
  apply (validated_request_is_redirected
           {| method := "GET"; url := "/dashboard";
              headers := {[ "host" := "valueOf" ]} |}
           newResponse "valueOf" "/dashboard").
  - simpl. discriminate.
  - reflexivity.
  - reflexivity.
  - reflexivity.
  - reflexivity.
  - reflexivity.
Defined.

(** ** The listeners of a forwarding *)

(** ** The listeners of a forwarding *)

Lemma run_app (evs evs' : list Event) (fw : Forwarding) :
  run (evs ++ evs') fw = (fw' ← run evs fw; run evs' fw').
Proof.
  revert fw. induction evs as [|ev evs IH]; intros fw; simpl.
  - reflexivity.
  - destruct (on ev fw) as [fw1|e]; simpl; [ apply IH | reflexivity ].
Qed.

Lemma run_data (chunks : list string) :
  ∀ fw, proxyRes fw = true → finished (res fw) = false →
        destroyed (res fw) = false → headersSent (res fw) = true →
    ∃ fw', run (map ProxyResData chunks) fw = Normal fw'
           ∧ header (res fw') = header (res fw)
           ∧ body (res fw') = (body (res fw) ++ chunks)%list
           ∧ finished (res fw') = false
           ∧ destroyed (res fw') = false
           ∧ proxyRes fw' = true
           ∧ promise fw' = promise fw.
Proof.
  induction chunks as [|chunk chunks IH]; intros fw Hp Hf Hd Hs; simpl.
  - exists fw. rewrite app_nil_r. repeat split; auto.
  - rewrite Hp, Hd. simpl. unfold write. rewrite Hf. simpl.
    unfold headersSent in Hs.
    destruct (header (res fw)) as [h|] eqn:Hh; [ | discriminate ].
    edestruct IH as (fw' & Hr & H1 & H2 & H3 & H4 & H5 & H6);
      [ | | | | exists fw'; split; [ exact Hr | ] ].
    + exact Hp.
    + reflexivity.
    + exact Hd.
    + unfold headersSent, implicitHead. simpl. by rewrite Hh.
    + rewrite H1, H2. simpl. unfold implicitHead. rewrite Hh.
      rewrite <- app_assoc. repeat split; auto.
Qed.

(** X8: when the upstream head arrives on a response that is still
    unwritten and alive, followed by body chunks and the end of the
    upstream response, the inbound response carries the upstream status
    with the sanitized headers plus CORS, the chunks in the order they
    arrived, is ended, and the promise is resolved. *)
Theorem upstream_body_is_relayed_in_order (fw : Forwarding)
    (statusCode : nat) (hdrs : Headers) (chunks : list string) :
  headersSent (res fw) = false → finished (res fw) = false →
  destroyed (res fw) = false → promise fw = Pending →
  ∃ fw',
    run (Response statusCode hdrs :: map ProxyResData chunks ++ [ProxyResEnd])
        fw = Normal fw'
    ∧ header (res fw')
      = Some (statusCode, addCorsHeaders (sanitizeHeaders hdrs))
    ∧ body (res fw') = (body (res fw) ++ chunks)%list
    ∧ finished (res fw') = true
    ∧ promise fw' = Resolved.
Proof.
  intros Hs Hf Hd Hp. cbn [run].
  unfold on at 1, writeHead. rewrite Hs. simpl mbind.
  rewrite run_app.
  edestruct (run_data chunks) as (fw1 & Hr & H1 & H2 & H3 & H4 & H5 & H6);
    [ | | | | rewrite Hr ].
  - reflexivity.
  - exact Hf.
  - exact Hd.
  - reflexivity.
  - simpl. rewrite H5, H4. simpl. unfold resolve. simpl.
    rewrite H6. simpl. rewrite Hp.
    eexists. split; [ reflexivity | ]. simpl.
    unfold end_. rewrite H3. simpl. unfold implicitHead. rewrite H1, H2.
    simpl. rewrite app_nil_r. repeat split; reflexivity.
Qed.

Lemma upstream_body_is_relayed_in_order_witness :
  ∃ fw',
    run [Response 200 ∅; ProxyResData "{ok"; ProxyResData ":true}";
         ProxyResEnd] sample_forwarding = Normal fw'
    ∧ body (res fw') = ["{ok"; ":true}"]
    ∧ finished (res fw') = true.
Proof.
  destruct (upstream_body_is_relayed_in_order sample_forwarding 200 ∅
              ["{ok"; ":true}"])
    as (fw' & Hr & _ & Hb & Hf & _); try reflexivity.
  exists fw'. repeat split; assumption.
Defined.

(** X9: once the inbound connection is destroyed, no listener other
    than the response callback touches the inbound response: data and end
    of the upstream response are dropped, and the error, timeout and
    client listeners (and the [catch] block behind them) write nothing. *)
Theorem destroyed_response_is_left_alone (ev : Event) (fw : Forwarding) :
  destroyed (res fw) = true →
  (∀ statusCode hdrs, ev ≠ Response statusCode hdrs) →
  ∃ fw', on ev fw = Normal fw' ∧ res fw' = res fw.
Proof.
  intros Hd Hev.
  assert (G : ∀ fw0, res fw0 = res fw →
              headersSent (res fw0) || destroyed (res fw0) = true).
  { intros fw0 ->. rewrite Hd. apply orb_true_r. }
  assert (F : ∀ fw0 statusCode message, res fw0 = res fw →
              ∃ fw',
                (r ← sendError (res fw0) statusCode message;
                 reject (set_res fw0 r)) = Normal fw'
                ∧ res fw' = res fw).
  { intros fw0 statusCode message E.
    rewrite (sendError_guarded _ statusCode message (G fw0 E)). simpl.
    destruct (reject_after_sendError (set_res fw0 (res fw0)))
      as (fw' & Hr & Hres & _).
    - simpl. by apply G.
    - exists fw'. split; [ exact Hr | ]. rewrite Hres. simpl. exact E. }
  destruct ev; unfold on.
  - exfalso. by apply (Hev statusCode responseHeaders).
  - exists fw. destruct (proxyRes fw); rewrite ?Hd; auto.
  - destruct (proxyRes fw); rewrite ?Hd; simpl.
    + eexists. split; [ reflexivity | ].
      unfold resolve. by destruct (promise fw).
    + by exists fw.
  - destruct (proxyRes fw); [ by apply F | by exists fw ].
  - by apply F.
  - by apply (F (destroy fw)).
  - eexists. split; [ reflexivity | ].
    by destruct (negb (proxyReq_destroyed fw)).
  - destruct (reject_after_sendError
                (if negb (proxyReq_destroyed fw) then destroy fw else fw))
      as (fw' & Hr & Hres & _).
    + destruct (negb (proxyReq_destroyed fw)); simpl; by apply G.
    + exists fw'. split; [ exact Hr | ]. rewrite Hres.
      by destruct (negb (proxyReq_destroyed fw)).
  - eexists. split; [ reflexivity | ]. simpl.
    destruct (res fw) as [hd bd fin des]. simpl in Hd. by rewrite Hd.
Qed.

Lemma destroyed_response_is_left_alone_witness :
  ∃ fw fw',
    run [Response 200 ∅; ProxyResData "{"; SocketClosed] sample_forwarding
    = Normal fw
    ∧ on (ProxyResData "}") fw = Normal fw'
    ∧ body (res fw') = ["{"].
Proof.
  eexists. 
  destruct (destroyed_response_is_left_alone (ProxyResData "}")
              (set_res (gotResponse sample_forwarding)
                 {| header := Some (200, addCorsHeaders (sanitizeHeaders ∅));
                    body := ["{"]; finished := false; destroyed := true |}))
    as (fw' & Hon & Hres).
  - reflexivity.
  - intros statusCode hdrs H. discriminate H.
  - exists fw'. split; [ reflexivity | ].
    split; [ exact Hon | ]. by rewrite Hres.
Defined.

(** X11: when the inbound request closes, the outbound request is
    destroyed and nothing is written to the inbound response; when the
    inbound request errors, the outbound request is destroyed and, the
    promise being still pending, the [catch] block's
    [sendError(res, 500, "Proxy Error")] is what happens to the inbound
    response (a 500 when it is still unwritten and alive), while after
    the promise was settled the response is left as it is. *)
Theorem client_failure_aborts_outbound (fw : Forwarding) :
  (∃ fw', on ReqClose fw = Normal fw'
          ∧ proxyReq_destroyed fw' = true
          ∧ res fw' = res fw
          ∧ promise fw' = promise fw)
  ∧ (∃ fw', on ReqError fw = Normal fw'
            ∧ proxyReq_destroyed fw' = true
            ∧ promise fw' ≠ Pending
            ∧ (promise fw = Pending →
               sendError (res fw) 500 "Proxy Error" = Normal (res fw')
               ∧ promise fw' = Rejected)
            ∧ (promise fw ≠ Pending → res fw' = res fw)).
Proof.
  split.
  - eexists. split; [ reflexivity | ].
    destruct (proxyReq_destroyed fw) eqn:Hd; simpl; auto.
  - unfold on.
    set (fw0 := if negb (proxyReq_destroyed fw) then destroy fw else fw).
    assert (H0 : proxyReq_destroyed fw0 = true ∧ res fw0 = res fw
                 ∧ promise fw0 = promise fw).
    { unfold fw0. destruct (proxyReq_destroyed fw) eqn:Hd; simpl; auto. }
    destruct H0 as (Hd & Hr & Hp). clearbody fw0.
    unfold reject. rewrite Hp, Hr.
    destruct (promise fw) eqn:P.
    + destruct (sendError_normal (res fw) 500 "Proxy Error")
        as (r & Hs & _).
      rewrite Hs. simpl. eexists. split; [ reflexivity | ]. simpl.
      split; [ exact Hd | ]. split; [ discriminate | ].
      split; [ auto | intros H; by destruct H ].
    + exists fw0. rewrite ?Hp, ?P.
      repeat split; auto; try discriminate.
    + exists fw0. rewrite ?Hp, ?P.
      repeat split; auto; try discriminate.
Qed.

(** ** The request listener *)

(** X12: the request listener never lets an exception escape: when
    [handleRequest] throws, the [catch] of [start] answers through
    [sendError], which does not throw.  In particular, on a response
    whose head was already sent, [handleRedirect] and
    [handleCorsPreflightRequest] throw from [writeHead] and the listener
    returns with the response untouched. *)
Theorem requestListener_never_throws (req : IncomingMessage)
    (r : ServerResponse) :
  ∃ served, requestListener req r = Normal served
    ∧ (headersSent r = true →
       served = Answered r ∨ ∃ fw, served = Forwarded fw ∧ res fw = r).
Proof.
  assert (A : ∀ c : Completion ServerResponse,
            (headersSent r = true → c = Normal r ∨ ∃ e, c = Throw e) →
            ∃ served,
              match c with
              | Normal r' => mret (Answered r')
              | Throw _ =>
                  r' ← sendError r 500 "Internal Server Error";
                  mret (Answered r')
              end = Normal served
              ∧ (headersSent r = true → served = Answered r)).
  { intros c Hc. destruct c as [r'|e].
    - eexists. split; [ reflexivity | ]. intros Hs.
      destruct (Hc Hs) as [[= ->] | [e H]]; [ reflexivity | discriminate H ].
    - destruct (sendError_normal r 500 "Internal Server Error")
        as (r' & Hs' & _).
      rewrite Hs'. eexists. split; [ reflexivity | ]. intros Hs.
      rewrite sendError_guarded in Hs' by (by rewrite Hs).
      by injection Hs' as <-. }
  assert (S : ∀ statusCode message,
            headersSent r = true →
            sendError r statusCode message = Normal r
            ∨ ∃ e, sendError r statusCode message = Throw e).
  { intros statusCode message Hs. left. apply sendError_guarded.
    by rewrite Hs. }
  assert (W : ∀ statusCode hs (k : ServerResponse → Completion ServerResponse),
            headersSent r = true →
            (r' ← writeHead r statusCode hs; k r') = Normal r
            ∨ ∃ e, (r' ← writeHead r statusCode hs; k r') = Throw e).
  { intros statusCode hs k Hs. right. unfold writeHead. rewrite Hs.
    by eexists. }
  unfold requestListener.
  destruct (handleRequest req r) as [c | gateway finalPath referrer] eqn:H.
  - destruct (A c) as (served & Hserved & Hsame).
    + intros Hs. unfold handleRequest in H.
      destruct (Url.parse (url req)) as [pathname|e].
      2: { injection H as <-. right. by eexists. }
      destruct (String.eqb (method req) "OPTIONS").
      { injection H as <-. by apply W. }
      destruct (negb _ || negb _).
      { injection H as <-. by apply S. }
      destruct pathname as [pathname|].
      * destruct (gatewayLoop PAYMENT_GATEWAYS _ _) as [[g fp]|];
          [ discriminate H | ].
        destruct (JS.truthy (JS.get REDIRECTION_MAP _)).
        -- injection H as <-. by apply W.
        -- injection H as <-. by apply S.
      * injection H as <-. right. by eexists.
    + exists served. split; [ exact Hserved | ]. intros Hs. left. auto.
  - unfold handlePaymentGatewayProxy.
    destruct (gatewayConfig_of PAYMENT_GATEWAYS gateway).
    + eexists. split; [ reflexivity | ]. intros _. right.
      eexists. split; reflexivity.
    + destruct (JS.truthy (JS.Object_prototype gateway)).
      * destruct (A (sendError r 500 "Proxy Error")) as (served & Hserved & Hsame);
          [ by apply S | ].
        exists served. split; [ exact Hserved | ]. intros Hs. left. auto.
      * destruct (A (sendError r 400 "Invalid payment gateway"))
          as (served & Hserved & Hsame); [ by apply S | ].
        exists served. split; [ exact Hserved | ]. intros Hs. left. auto.
Qed.

(** ** The life of the process *)

Lemma accepting_inv (p : Process) :
  accepting p = true →
  exitCode p = None ∧ listening p = true
  ∧ closeListeners p = [] ∧ timers p = [].
Proof.
  unfold accepting.
  destruct (exitCode p); [ discriminate | ].
  destruct (closeListeners p); [ | discriminate ].
  destruct (timers p); [ | discriminate ]. auto.
Qed.

Lemma accepting_step (ev : ProcessEvent) (p : Process) :
  accepting p = true →
  (accepting (step ev p) = true ∧ ∀ name, ev ≠ Signal name)
  ∨ (∃ name, ev = Signal name ∧ draining (step ev p) = true).
Proof.
  intros A. pose proof (accepting_inv p A) as (He & Hl & Hls & Hts).
  destruct ev; unfold step; rewrite He.
  - right. exists name. split; [ reflexivity | ].
    unfold draining, shutdown, server_close, setTimeout, log; simpl.
    rewrite He, Hls, Hts, Hl. reflexivity.
  - left. rewrite Hl. split; [ | discriminate ].
    unfold accepting in *. simpl. exact A.
  - left. split; [ | discriminate ]. unfold accepting in *. simpl. exact A.
  - left. rewrite Hl. simpl. split; [ exact A | discriminate ].
  - left. rewrite Hts. split; [ exact A | discriminate ].
Qed.

Lemma draining_step (ev : ProcessEvent) (p : Process) :
  draining p = true →
  (exitCode (step ev p) = None ∧ draining (step ev p) = true)
  ∨ (ev = Drained ∧ connections p = 0 ∧ exitCode (step ev p) = Some 0)
  ∨ (ev = GraceExpired ∧ exitCode (step ev p) = Some 1).
Proof.
  intros D. pose proof (draining_inv p D) as (He & Hl & _).
  destruct ev.
  - left. unfold step. rewrite He. split.
    + by rewrite exitCode_shutdown.
    + by apply draining_shutdown.
  - left. unfold step. rewrite He, Hl. auto.
  - left. unfold step. rewrite He. split; [ exact He | exact D ].
  - destruct (connections p) as [|n] eqn:Hn.
    + right. left. split; [ reflexivity | ]. split; [ reflexivity | ].
      by apply draining_drained.
    + left. unfold step. rewrite He, Hl, Hn. simpl. auto.
  - right. right. split; [ reflexivity | ]. by apply draining_grace_expired.
Qed.

Lemma lifecycle_inv_step (ev : ProcessEvent) (p : Process) :
  lifecycle_inv p →
  lifecycle_inv (step ev p)
  ∧ (exitCode p = None → exitCode (step ev p) = Some 1 → ev = GraceExpired)
  ∧ (exitCode p = None → exitCode (step ev p) = Some 0 →
     ev = Drained ∧ draining p = true ∧ connections p = 0)
  ∧ (accepting p = true → (∀ name, ev ≠ Signal name) →
     accepting (step ev p) = true).
Proof.
  unfold lifecycle_inv at 1. destruct (exitCode p) as [code|] eqn:He.
  - intros Hc.
    assert (E : step ev p = p) by (unfold step; by rewrite He).
    rewrite E. unfold lifecycle_inv. rewrite He.
    split; [ exact Hc | ]. split; [ discriminate | ].
    split; [ discriminate | ].
    intros A. apply accepting_inv in A as [A _]. congruence.
  - intros [A | D].
    + destruct (accepting_step ev p A) as [[A' Hns] | (name & -> & D')].
      * pose proof (accepting_inv _ A') as (He' & _).
        unfold lifecycle_inv. rewrite He'.
        split; [ by left | ]. split; [ discriminate | ].
        split; [ discriminate | auto ].
      * pose proof (draining_inv _ D') as (He' & _).
        unfold lifecycle_inv. rewrite He'.
        split; [ by right | ]. split; [ discriminate | ].
        split; [ discriminate | ].
        intros _ Hns. by destruct (Hns name).
    + assert (NA : accepting p = false).
      { apply draining_inv in D as (_ & Hl & _). unfold accepting.
        rewrite He, Hl. by destruct (closeListeners p), (timers p). }
      destruct (draining_step ev p D)
        as [[He' D'] | [(-> & Hc & He') | (-> & He')]];
        unfold lifecycle_inv; rewrite He'.
      * split; [ by right | ]. split; [ discriminate | ].
        split; [ discriminate | ]. rewrite NA. discriminate.
      * split; [ by left | ]. split; [ discriminate | ].
        split; [ auto | ]. rewrite NA. discriminate.
      * split; [ by right | ]. split; [ auto | ].
        split; [ discriminate | ]. rewrite NA. discriminate.
Qed.

Lemma exited_steps (evs : list ProcessEvent) (p : Process) (code : nat) :
  exitCode p = Some code → steps evs p = p.
Proof.
  revert p. induction evs as [|ev evs IH]; intros p He; simpl.
  - reflexivity.
  - assert (E : step ev p = p) by (unfold step; by rewrite He).
    rewrite E. by apply IH.
Qed.

Lemma lifecycle_inv_steps (evs : list ProcessEvent) :
  ∀ p, lifecycle_inv p →
    lifecycle_inv (steps evs p)
    ∧ (accepting p = true → (∀ name, Signal name ∉ evs) →
       accepting (steps evs p) = true)
    ∧ (exitCode p = None → GraceExpired ∉ evs →
       exitCode (steps evs p) ≠ Some 1)
    ∧ (exitCode p = None → Drained ∉ evs →
       exitCode (steps evs p) ≠ Some 0).
Proof.
  induction evs as [|ev evs IH]; intros p I; simpl.
  - split; [ exact I | ]. split; [ auto | ].
    split; intros He _; rewrite He; discriminate.
  - destruct (lifecycle_inv_step ev p I) as (I1 & G1 & D1 & A1).
    destruct (IH (step ev p) I1) as (I2 & A2 & G2 & D2).
    split; [ exact I2 | ]. split; [ | split ].
    + intros A Hns. apply A2.
      * apply A1; [ exact A | ]. intros name ->. apply (Hns name).
        apply elem_of_cons. by left.
      * intros name Hin. apply (Hns name). apply elem_of_cons. by right.
    + intros He Hng. destruct (exitCode (step ev p)) as [code|] eqn:He1.
      * rewrite (exited_steps evs _ code He1), He1. intros [= ->].
        apply Hng. rewrite (G1 He eq_refl). apply elem_of_cons. by left.
      * apply G2; [ reflexivity | ]. intros Hin. apply Hng.
        apply elem_of_cons. by right.
    + intros He Hnd. destruct (exitCode (step ev p)) as [code|] eqn:He1.
      * rewrite (exited_steps evs _ code He1), He1. intros [= ->].
        apply Hnd. destruct (D1 He eq_refl) as [-> _].
        apply elem_of_cons. by left.
      * apply D2; [ reflexivity | ]. intros Hin. apply Hnd.
        apply elem_of_cons. by right.
Qed.

(** X13: whatever happens after [start], in whatever order: the process
    exits with status 0 or 1 or not at all; without a termination signal
    it does not exit and keeps accepting connections; it exits with
    status 1 only when the grace timer expired (the callback that would
    receive [ERR_SERVER_NOT_RUNNING] never gets to run) and with status 0
    only when the server drained. *)
Theorem exit_status_of_the_process (evs : list ProcessEvent) :
  (exitCode (steps evs started) = None
   ∨ exitCode (steps evs started) = Some 0
   ∨ exitCode (steps evs started) = Some 1)
  ∧ ((∀ name, Signal name ∉ evs) →
     exitCode (steps evs started) = None
     ∧ listening (steps evs started) = true)
  ∧ (GraceExpired ∉ evs → exitCode (steps evs started) ≠ Some 1)
  ∧ (Drained ∉ evs → exitCode (steps evs started) ≠ Some 0).
Proof.
  assert (I0 : lifecycle_inv started) by (by left).
  destruct (lifecycle_inv_steps evs started I0) as (I & A & G & D).
  split; [ | split; [ | split ] ].
  - unfold lifecycle_inv in I.
    destruct (exitCode (steps evs started)) as [code|]; [ | by left ].
    right. destruct I as [-> | ->]; auto.
  - intros Hns. apply accepting_inv in A as (He & Hl & _); auto.
  - by apply G.
  - by apply D.
Qed.

(** X14: a draining server does not close while a connection is open,
    and closes with status 0 once the open connections have all ended:
    with [n] connections open, [close] is not emitted before they end,
    and after [n] connection ends the drain completes and the process
    exits with status 0. *)
Theorem drain_waits_for_connections (p : Process) (n : nat) :
  draining p = true → connections p = n →
  (0 < n → step Drained p = p)
  ∧ exitCode (steps (replicate n ConnectionEnded ++ [Drained]) p) = Some 0.
Proof.
  intros D Hn. split.
  - intros Hpos. apply draining_inv in D as (He & Hl & _).
    unfold step. rewrite He, Hl, Hn. destruct n; [ lia | reflexivity ].
  - revert p D Hn. induction n as [|n IH]; intros p D Hn; simpl.
    + by apply draining_drained.
    + pose proof (draining_inv p D) as (He & _).
      assert (E : step ConnectionEnded p
                  = set_connections (pred (connections p)) p)
        by (unfold step; by rewrite He).
      rewrite E. apply IH.
      * by rewrite draining_set_connections.
      * simpl. by rewrite Hn.
Qed.

Lemma drain_waits_for_connections_witness :
  exitCode
    (steps [ConnectionEnded; ConnectionEnded; Drained]
       (steps [ConnectionOpened; ConnectionOpened; Signal "SIGTERM"; Drained]
          started))
  = Some 0.
Proof.
  apply (drain_waits_for_connections
           (steps [ConnectionOpened; ConnectionOpened; Signal "SIGTERM";
                   Drained] started) 2);
    reflexivity.
Defined.
